(** * GeneMelody: the sequence-analysis core of [DNA.py]

    A shallow embedding of [clean_dna], [base_counts_and_stats],
    [find_motifs], [find_orfs_all_frames], [summarize_orfs] and the track
    construction of [dna_to_midi_file] (and of [save_midi] in
    [gene_melody_streamlit.py]), followed by the properties of the
    specification that concern them and by further properties of the code.

    Conventions of the embedding:
    - a Python [str] is the list of its Unicode code points ([list N]); a
      one-character string, as produced by iterating over a [str], is a single
      code point;
    - a Python [int] that is a length, an index or a count is a [nat]; the
      [-1] that [str.find] returns for "not found" is [None];
    - a Python [float] is an IEEE 754 binary64 number ([PrimFloat.float]);
    - a [dict] whose iteration order is observed is an association list in
      insertion order, otherwise a [gmap]; a [set] is a [gset];
    - a dict with fixed string keys that is built once and returned is a
      record. *)

From Stdlib Require Import ZArith NArith Floats DecimalString Reals Lra.
From stdpp Require Import gmap list strings sorting.
From Equations Require Import Equations.

Local Open Scope N_scope.
Local Open Scope nat_scope.

(** ** Python strings *)

Abbreviation str := (list N).

(** A string literal of the source with ASCII characters only. *)
Definition py (s : string) : str :=
  map Ascii.N_of_ascii (String.list_ascii_of_string s).

(** [sep.join(parts)]. *)
Fixpoint str_join (sep : str) (parts : list str) : str :=
  match parts with
  | [] => []
  | [p] => p
  | p :: ps => p ++ sep ++ str_join sep ps
  end.

(** [s[i:j]] for [0 <= i], [0 <= j]: Python clips both bounds to the length. *)
Definition slice (s : str) (i j : nat) : str := take (j - i) (drop i s).


(** [s.find(sub, start)]: the lowest index [i >= start] with
    [s[i:i+len(sub)] == sub], and [-1] ([None]) when there is none, which
    includes every [start > len(s)]. [find_at sub t i] searches the suffix [t]
    of [s] that begins at index [i]. *)
Fixpoint find_at (sub t : str) (i : nat) : option nat :=
  if bool_decide (take (length sub) t = sub) then Some i
  else match t with
       | [] => None
       | _ :: t' => find_at sub t' (S i)
       end.

Definition str_find (s sub : str) (start : nat) : option nat :=
  if bool_decide (start ≤ length s) then find_at sub (drop start s) start
  else None.

(** [s.upper()]. Python upper-cases code point by code point with the full
    Unicode case mapping, which may expand one code point into several. Below
    128 the mapping is the ASCII one; above, it is the table of the Python
    runtime, which is a parameter [upper_nonascii] of the embedding. *)
Section Upper.
Variable upper_nonascii : N -> str.

Definition upper_char (c : N) : str :=
  if (c <? 128)%N then
    if ((97 <=? c) && (c <=? 122))%N then [(c - 32)%N] else [c]
  else upper_nonascii c.

Definition str_upper (s : str) : str := s ≫= upper_char.
End Upper.

(** ** Constants *)

Definition BASE_NOTE_MAP : gmap N Z :=
  <[65%N := 60%Z]> (<[84%N := 62%Z]> (<[67%N := 64%Z]> (<[71%N := 67%Z]> ∅))).

Definition STOP_CODONS : gset str := {[ py "TAA"; py "TAG"; py "TGA" ]}.

Definition AVG_NT_DA : float := 330%float.

(** ** [clean_dna] *)

Section Clean.
Variable upper_nonascii : N -> str.

Definition clean_dna (raw : str) : str :=
  let s := str_upper upper_nonascii raw in
  str_join [] (map (λ c, [c]) (filter (λ c, is_Some (BASE_NOTE_MAP !! c)) s)).
End Clean.

(** ** [base_counts_and_stats] *)

(** [collections.Counter(s)]: every element of [s] increments its entry. *)
Definition Counter (s : str) : gmap N nat :=
  foldl (λ m c, <[c := S (default 0 (m !! c))]> m) ∅ s.

(** [d.get(k, dflt)]. *)
Definition dict_get (d : gmap N nat) (k : N) (dflt : nat) : nat :=
  default dflt (d !! k).

(** [float(n)]; exact below [2^53]. *)
Definition float_of_nat (n : nat) : float :=
  PrimFloat.of_uint63 (Uint63.of_Z (Z.of_nat n)).

(** [a / b] on two [int]s: the nearest double to the quotient, which is the
    quotient of the two converted operands whenever both are below [2^53]
    (a sequence has far fewer symbols). *)
Definition int_truediv (a b : nat) : float :=
  (float_of_nat a / float_of_nat b)%float.

(** [float('inf')]. *)
Definition float_inf : float := infinity.

Record Stats := {
  counts : gmap N nat;
  total : nat;
  gc_percent : float;
  at_percent : float;
  at_gc_ratio : float;
  mw_da : float;
  mw_kda : float
}.

Definition base_counts_and_stats (dna : str) : Stats :=
  let counts := Counter dna in
  let total := if bool_decide (dna = []) then 1 else length dna in
  let gc := dict_get counts 71 0 + dict_get counts 67 0 in
  let at_ := dict_get counts 65 0 + dict_get counts 84 0 in
  let gc_percent := (int_truediv gc total * float_of_nat 100)%float in
  let at_percent := (int_truediv at_ total * float_of_nat 100)%float in
  let at_gc_ratio :=
    if bool_decide (0 < gc) then int_truediv at_ gc else float_inf in
  let mw_da := (float_of_nat (length dna) * AVG_NT_DA)%float in
  let mw_kda := (mw_da / 1000)%float in
  {| counts := counts;
     total := length dna;
     gc_percent := gc_percent;
     at_percent := at_percent;
     at_gc_ratio := at_gc_ratio;
     mw_da := mw_da;
     mw_kda := mw_kda |}.

(** ** [find_motifs] *)

Definition emdash : str := [8212%N].
Definition endash : str := [8211%N].

Definition DNA_MEANINGS : list (str * str) := [
    (py "TATAAA", py "TATA box (variant: TATAAA) " ++ emdash ++ py " promoter element near TSS.");
    (py "TATATA", py "TATA box (variant: TATATA) " ++ emdash ++ py " promoter element near TSS.");
    (py "TATATT", py "TATA box (variant: TATATT) " ++ emdash ++ py " promoter element near TSS.");
    (py "TATAAT", py "TATA box (variant: TATAAT) " ++ emdash ++ py " promoter element near TSS.");
    (py "TATGAA", py "TATA-like box (variant: TATGAA) " ++ emdash ++ py " promoter element near TSS.");
    (py "CAAT", py "CAAT box " ++ emdash ++ py " TF-binding site (often ~50" ++ endash ++ py "200 bp upstream of TSS).");
    (py "CCAAT", py "CAAT box (CCAAT) " ++ emdash ++ py " TF-binding site (~50" ++ endash ++ py "200 bp upstream of TSS).");
    (py "CAATT", py "CAAT box (CAATT) " ++ emdash ++ py " TF-binding site (~50" ++ endash ++ py "200 bp upstream of TSS).");
    (py "CCATT", py "CAAT box (CCATT) " ++ emdash ++ py " TF-binding site (~50" ++ endash ++ py "200 bp upstream of TSS).");
    (py "GGGCGG", py "GC box (GGGCGG) " ++ emdash ++ py " GC-rich TF-binding site.");
    (py "GGGAGG", py "GC box (GGGAGG) " ++ emdash ++ py " GC-rich TF-binding site.");
    (py "GGGCCG", py "GC box (GGGCCG) " ++ emdash ++ py " GC-rich TF-binding site.");
    (py "GCGGGG", py "GC box (GCGGGG) " ++ emdash ++ py " GC-rich TF-binding site.");
    (py "GAATTC", py "EcoRI restriction site (GAATTC).");
    (py "GGATCC", py "BamHI restriction site (GGATCC).");
    (py "AAGCTT", py "HindIII restriction site (AAGCTT).");
    (py "CTGCAG", py "PstI restriction site (CTGCAG).");
    (py "CCCGGG", py "SmaI restriction site (CCCGGG).");
    (py "GCGGCCGC", py "NotI restriction site (GCGGCCGC).");
    (py "TCTAGA", py "XbaI restriction site (TCTAGA).");
    (py "GCTAGC", py "NheI restriction site (GCTAGC).");
    (py "GGTACC", py "KpnI restriction site (GGTACC).");
    (py "GAGCTC", py "SacI restriction site (GAGCTC).")
  ].

Record MotifEntry := {
  motif : str;
  start : nat;
  meaning : str
}.

(** [sorted(l, key=key)]: Python's sort is stable, and the stable sort of a
    list by a key is unique, so a stable insertion sort computes it. *)
Fixpoint insert_by {A} (key : A → nat) (x : A) (l : list A) : list A :=
  match l with
  | [] => [x]
  | y :: l' =>
      if bool_decide (key x ≤ key y) then x :: y :: l'
      else y :: insert_by key x l'
  end.

Definition sorted {A} (l : list A) (key : A → nat) : list A :=
  foldr (insert_by key) [] l.

(** What [str_find] returns lies between [start] and the length: the inner
    [while True] of [find_motifs] therefore makes progress. *)
Lemma find_at_bounds sub t i k :
  find_at sub t i = Some k → i ≤ k ≤ i + length t.
Proof.
  revert i; induction t as [|c t IH]; intros i; simpl.
  - case_bool_decide; intros [=]; lia.
  - case_bool_decide; [intros [=]; lia|]. intros Hk%IH. lia.
Qed.

Lemma str_find_bounds s sub start0 k :
  str_find s sub start0 = Some k → start0 ≤ k ≤ length s.
Proof.
  unfold str_find. case_bool_decide; [|done]. intros Hk%find_at_bounds.
  rewrite length_drop in Hk. lia.
Qed.

Definition inspect {A} (a : A) : {b | a = b} := exist _ a eq_refl.

(** The body of [for motif, meaning in motifs.items()]: the [while True]
    loop, entered with the current [start] and the list [found] so far. *)
Equations? motif_loop (dna motif meaning : str) (start0 : nat)
    (found : list MotifEntry) : list MotifEntry
    by wf (S (length dna) - start0) lt :=
  motif_loop dna motif meaning start0 found
    with inspect (str_find dna motif start0) => {
    | exist _ None _ := found;
    | exist _ (Some idx) Hidx :=
        motif_loop dna motif meaning (idx + 1)
          (found ++ [{| motif := motif; start := idx + 1; meaning := meaning |}]) }.
Proof. apply str_find_bounds in Hidx. lia. Qed.

Definition find_motifs (dna : str) (motifs : list (str * str)) : list MotifEntry :=
  let found :=
    foldl (λ found '(motif, meaning), motif_loop dna motif meaning 0 found)
          [] motifs in
  sorted found start.

(** ** [find_orfs_all_frames] *)

Record ORF := {
  frame : nat;
  orf_start : nat;
  orf_end : nat;
  length_nt : nat;
  length_aa : nat
}.

(** The inner [while j + 3 <= n] of [find_orfs_all_frames]. *)
Equations? stop_loop (dna : str) (n frame0 i j : nat) (orfs : list ORF) : list ORF
    by wf (n - j) lt :=
  stop_loop dna n frame0 i j orfs with decide (j + 3 ≤ n) => {
    | right _ := orfs;
    | left _ with bool_decide (slice dna j (j + 3) ∈ STOP_CODONS) => {
      | true :=
          let length_nt := (j + 3) - i in
          let length_aa := length_nt `div` 3 in
          orfs ++ [{| frame := frame0; orf_start := i + 1; orf_end := j + 3;
                      length_nt := length_nt; length_aa := length_aa |}];
      | false := stop_loop dna n frame0 i (j + 3) orfs } }.
Proof. lia. Qed.

(** The outer [while i + 3 <= n]. *)
Equations? frame_loop (dna : str) (n frame0 i : nat) (orfs : list ORF) : list ORF
    by wf (n - i) lt :=
  frame_loop dna n frame0 i orfs with decide (i + 3 ≤ n) => {
    | right _ := orfs;
    | left _ with bool_decide (slice dna i (i + 3) = py "ATG") => {
      | true := frame_loop dna n frame0 (i + 3) (stop_loop dna n frame0 i i orfs);
      | false := frame_loop dna n frame0 (i + 3) orfs } }.
Proof. all: lia. Qed.

Definition find_orfs_all_frames (dna : str) : list ORF :=
  let n := length dna in
  foldl (λ orfs frame0, frame_loop dna n frame0 frame0 orfs) [] (seq 0 3).

(** ** [summarize_orfs] *)




(** ** [dna_to_midi_file] *)

(** The messages that the source puts on a [mido] track, with the fields it
    sets: [Message('program_change', program=, time=)],
    [MetaMessage('set_tempo', tempo=)] (whose [time] keeps its default 0),
    [Message('note_on', note=, velocity=, time=)] and the same for
    ['note_off']. *)
Inductive Message :=
| program_change (program time : Z)
| set_tempo (tempo : Z)
| note_on (note velocity time : Z)
| note_off (note velocity time : Z).

(** [msg.time]: the delta time of a message in ticks. *)
Definition msg_time (m : Message) : Z :=
  match m with
  | program_change _ t => t
  | set_tempo _ => 0
  | note_on _ _ t => t
  | note_off _ _ t => t
  end.

(** [mido.bpm2tempo] and the serialisation of a [MidiFile] with one track
    ([midi.save(file=buf)] followed by [buf.getvalue()]) belong to the [mido]
    library; they are parameters of the embedding. *)
Section Mido.
Variable bpm2tempo : Z → Z.
Variable save : list (list Message) → list Byte.byte.

(** The track at the time [midi.save] is called. *)
Definition midi_track (dna_sequence : str) (bpm program : Z) : list Message :=
  let track := [] in
  let track := track ++ [program_change program 0] in
  let track := track ++ [set_tempo (bpm2tempo bpm)] in
  foldl (λ track base,
           match BASE_NOTE_MAP !! base with
           | Some note =>
               if bool_decide (note ≠ 0%Z) then
                 (track ++ [note_on note 100 0]) ++ [note_off note 100 200]
               else track
           | None => track
           end)
        track dna_sequence.

Definition dna_to_midi_file (dna_sequence : str) (bpm program : Z) : list Byte.byte :=
  save [midi_track dna_sequence bpm program].
End Mido.

(** ** [save_midi] of [gene_melody_streamlit.py] *)

(** [float(z)] for an [int] [z] with [0 <= z < 2^53]. *)
Definition float_of_Z (z : Z) : float :=
  PrimFloat.of_uint63 (Uint63.of_Z z).

(** [int(x)] on a [float]: the integer part, rounding toward zero; on an
    infinity or a NaN Python raises ([None]). *)
Definition int_of_float (x : float) : option Z :=
  match Prim2SF x with
  | S754_zero _ => Some 0%Z
  | S754_finite s m e =>
      let a := if (0 <=? e)%Z then (Z.pos m * 2 ^ e)%Z
               else (Z.pos m `div` 2 ^ (- e))%Z in
      Some (if s then (- a)%Z else a)
  | S754_infinity _ => None
  | S754_nan => None
  end.

(** The track that [save_midi] hands to [midi.save]; [None] when
    [int(60000000 / bpm)] raises (for [bpm = 0] Python raises at the
    division already). *)
Definition save_midi_track (sequence : str) (bpm program : Z) : option (list Message) :=
  tempo ← int_of_float (float_of_Z 60000000 / float_of_Z bpm)%float;
  let track := [] in
  let track := track ++ [program_change program 0] in
  let track := track ++ [set_tempo tempo] in
  Some (foldl (λ track base,
                 match BASE_NOTE_MAP !! base with
                 | Some note =>
                     if bool_decide (note ≠ 0%Z) then
                       (track ++ [note_on note 100 0]) ++ [note_off note 100 200]
                     else track
                 | None => track
                 end)
              track sequence).

(** * Properties *)

(** ** String helpers *)

Lemma str_join_chars (l : str) : str_join [] (map (λ c, [c]) l) = l.
Proof.
  induction l as [|c [|d l] IH]; [done..|].
  change (c :: str_join [] (map (λ c, [c]) (d :: l)) = c :: d :: l).
  by rewrite IH.
Qed.

Lemma py_bases : py "ATCG" = [65; 84; 67; 71]%N.
Proof. reflexivity. Qed.

Lemma in_BASE_NOTE_MAP (c : N) : is_Some (BASE_NOTE_MAP !! c) ↔ c ∈ py "ATCG".
Proof.
  rewrite py_bases. unfold BASE_NOTE_MAP. rewrite !elem_of_cons, elem_of_nil.
  rewrite !lookup_insert, lookup_empty.
  repeat case_decide; split; intros Hc; eauto 6;
    first [by destruct Hc | intuition congruence].
Qed.

(** ** SequenceCleaner *)

Section CleanerFacts.
Variable up : N → str.

Lemma clean_dna_filter (raw : str) :
  clean_dna up raw = filter (λ c, c ∈ py "ATCG") (str_upper up raw).
Proof.
  unfold clean_dna. cbv zeta. rewrite str_join_chars.
  apply list_filter_iff. intros c. apply in_BASE_NOTE_MAP.
Qed.

Lemma clean_dna_app (s1 s2 : str) :
  clean_dna up (s1 ++ s2) = clean_dna up s1 ++ clean_dna up s2.
Proof.
  rewrite !clean_dna_filter. unfold str_upper. by rewrite bind_app, filter_app.
Qed.

Lemma upper_char_base (c : N) : c ∈ py "ATCG" → upper_char up c = [c].
Proof.
  rewrite py_bases, !elem_of_cons, elem_of_nil.
  intros [->|[->|[->|[->|[]]]]]; reflexivity.
Qed.

Lemma str_upper_bases (s : str) :
  Forall (λ c, c ∈ py "ATCG") s → str_upper up s = s.
Proof.
  unfold str_upper. induction 1 as [|c s Hc _ IH]; [done|].
  rewrite bind_cons, IH, upper_char_base by done. done.
Qed.

Lemma clean_dna_bases (raw : str) : Forall (λ c, c ∈ py "ATCG") (clean_dna up raw).
Proof.
  rewrite clean_dna_filter. apply Forall_forall.
  intros c Hc%list_elem_of_filter. tauto.
Qed.

Lemma clean_dna_id (s : str) :
  Forall (λ c, c ∈ py "ATCG") s → clean_dna up s = s.
Proof.
  intros Hs. rewrite clean_dna_filter, str_upper_bases by done.
  induction Hs as [|c s Hc _ IH]; [done|].
  by rewrite filter_cons_True, IH.
Qed.
End CleanerFacts.

(** C8. For every input string, whatever the case mapping of the non-ASCII
    code points: the cleaned sequence is the upper-cased input filtered to the
    four symbols A, T, C, G. So every retained character is one of the four,
    the result is a subsequence of the upper-cased input (relative order kept),
    no other character occurs in it, and the result is always defined, the
    empty input giving the empty sequence. Seen from the input: cleaning
    distributes over concatenation; an input character none of whose
    upper-case characters is a base contributes nothing; and an ASCII character
    contributes its upper case when it is one of [ATCGatcg], nothing
    otherwise. *)
Theorem clean_dna_subsequence (up : N → str) (raw : str) :
  clean_dna up raw = filter (λ c, c ∈ py "ATCG") (str_upper up raw)
  ∧ Forall (λ c, c ∈ py "ATCG") (clean_dna up raw)
  ∧ clean_dna up raw `sublist_of` str_upper up raw
  ∧ (∀ c, c ∉ py "ATCG" → c ∉ clean_dna up raw)
  ∧ (∀ c, c ∈ py "ATCG" → c ∈ str_upper up raw → c ∈ clean_dna up raw)
  ∧ clean_dna up [] = []
  ∧ (∀ s1 s2, clean_dna up (s1 ++ s2) = clean_dna up s1 ++ clean_dna up s2)
  ∧ (∀ c, (∀ b, b ∈ upper_char up c → b ∉ py "ATCG") → clean_dna up [c] = [])
  ∧ (∀ c, (c < 128)%N →
       clean_dna up [c] =
         if bool_decide (c ∈ py "ATCG") then [c]
         else if bool_decide (c ∈ py "atcg") then [(c - 32)%N]
         else []).
Proof.
  repeat split.
  - apply clean_dna_filter.
  - apply clean_dna_bases.
  - rewrite clean_dna_filter. apply sublist_filter.
  - intros c Hc Hin. apply Hc.
    pose proof (clean_dna_bases up raw) as Hall.
    rewrite Forall_forall in Hall. by apply Hall.
  - intros c Hc Hin. rewrite clean_dna_filter. by apply list_elem_of_filter.
  - apply clean_dna_app.
  - intros c Hc. rewrite clean_dna_filter. unfold str_upper.
    rewrite bind_singleton. induction (upper_char up c) as [|b l IH]; [done|].
    rewrite filter_cons_False by (apply Hc; left).
    apply IH. intros b' Hb'. apply Hc. by right.
  - intros c Hc. rewrite clean_dna_filter. unfold str_upper.
    rewrite bind_singleton. unfold upper_char.
    apply N.ltb_lt in Hc as Hc'. rewrite Hc'.
    change (py "ATCG") with [65; 84; 67; 71]%N.
    change (py "atcg") with [97; 116; 99; 103]%N.
    destruct (_ && _) eqn:Hlow;
      [apply andb_true_iff in Hlow as [?%N.leb_le ?%N.leb_le]
      |apply andb_false_iff in Hlow as [?%N.leb_gt|?%N.leb_gt]];
      rewrite (filter_singleton _ _ []);
      repeat case_bool_decide; repeat case_decide; try done;
      repeat match goal with
      | H : _ ∈ _ |- _ => rewrite ?elem_of_cons, ?elem_of_nil in H
      | H : ¬ (_ ∈ _) |- _ => rewrite ?elem_of_cons, ?elem_of_nil in H
      end;
      exfalso; lia.
Qed.

(** C9. Cleaning is idempotent: cleaning a cleaned sequence gives the same
    sequence, and a sequence that holds only the four symbols is returned
    unchanged. *)
Theorem clean_dna_idempotent (up : N → str) (raw : str) :
  clean_dna up (clean_dna up raw) = clean_dna up raw
  ∧ (∀ s, Forall (λ c, c ∈ py "ATCG") s → clean_dna up s = s).
Proof.
  split.
  - apply clean_dna_id, clean_dna_bases.
  - apply clean_dna_id.
Qed.

(** ** CompositionAnalyzer *)

(** Number of occurrences of [c] in [s]. *)
Definition occurrences (c : N) (s : str) : nat := length (filter (λ x, x = c) s).

Lemma Counter_fold (s : str) (m : gmap N nat) (c : N) :
  default 0 (foldl (λ m c, <[c := S (default 0 (m !! c))]> m) m s !! c)
  = default 0 (m !! c) + occurrences c s.
Proof.
  unfold occurrences. revert m; induction s as [|x s IH]; intros m; simpl.
  - lia.
  - rewrite IH, filter_cons. destruct (decide (x = c)) as [->|Hne].
    + rewrite lookup_insert_eq. simpl. lia.
    + by rewrite lookup_insert_ne.
Qed.

Lemma dict_get_Counter (s : str) (c : N) :
  dict_get (Counter s) c 0 = occurrences c s.
Proof.
  unfold dict_get, Counter. by rewrite Counter_fold, lookup_empty.
Qed.

Lemma occurrences_bases (s : str) :
  Forall (λ c, c ∈ py "ATCG") s →
  occurrences 71 s + occurrences 67 s + (occurrences 65 s + occurrences 84 s)
  = length s.
Proof.
  unfold occurrences. induction 1 as [|c s Hc _ IH]; [done|].
  rewrite py_bases, !elem_of_cons, elem_of_nil in Hc.
  rewrite !filter_cons.
  destruct Hc as [->|[->|[->|[->|[]]]]];
    repeat case_decide; try done; simpl; lia.
Qed.

Lemma total_guard (dna : str) :
  (if bool_decide (dna = []) then 1 else length dna) = Nat.max (length dna) 1.
Proof.
  destruct dna; [done|]. rewrite bool_decide_eq_false_2 by done. simpl; lia.
Qed.

(** *** Binary64 division of two counts

    The quotient of two integers below [2^53], the divisor positive, is a
    finite double: both operands convert exactly, with an exponent between
    -52 and 0, so the exponent of the rounded quotient stays far below the
    overflow threshold. The argument follows the specification of the
    primitive operations ([SpecFloat]). *)

Section Binary64.
Local Open Scope Z_scope.

Lemma digits2_pos_bounds (p : positive) :
  2 ^ (Z.pos (digits2_pos p) - 1) ≤ Z.pos p < 2 ^ Z.pos (digits2_pos p).
Proof.
  induction p as [p IH|p IH|]; simpl digits2_pos; [| |simpl; lia];
    rewrite Pos2Z.inj_succ;
    replace (Z.succ (Z.pos (digits2_pos p)) - 1)
      with (Z.succ (Z.pos (digits2_pos p) - 1)) by lia;
    rewrite !Z.pow_succ_r by lia; lia.
Qed.

Lemma Zdigits2_le (m k : Z) : 0 ≤ k → 0 ≤ m < 2 ^ k → Zdigits2 m ≤ k.
Proof.
  intros Hk [Hm0 Hm]. destruct m as [|p|p]; simpl; [lia| |lia].
  destruct (Z.le_gt_cases (Z.pos (digits2_pos p)) k) as [|Hgt]; [done|].
  pose proof (digits2_pos_bounds p) as [Hlo _].
  assert (2 ^ k ≤ 2 ^ (Z.pos (digits2_pos p) - 1)) by (apply Z.pow_le_mono_r; lia).
  lia.
Qed.

Lemma iter_xO_spec (p : positive) (k : positive) :
  Z.pos (Pos.iter xO p k) = Z.pos p * 2 ^ Z.pos k
  ∧ digits2_pos (Pos.iter xO p k) = (digits2_pos p + k)%positive.
Proof.
  induction k as [|k IH] using Pos.peano_ind.
  - simpl. split; lia.
  - rewrite Pos.iter_succ. destruct IH as [IH1 IH2]. simpl digits2_pos. rewrite IH2.
    split; [|lia]. rewrite Pos2Z.inj_xO, IH1, Pos2Z.inj_succ, Z.pow_succ_r by lia. lia.
Qed.

Lemma fexp_small (e : Z) : -1021 ≤ e → fexp prec emax e = e - 53.
Proof. unfold fexp, emin, prec, emax. lia. Qed.

Lemma shr_fexp_canonical (m : positive) (e : Z) :
  -1021 ≤ Z.pos (digits2_pos m) + e → Z.pos (digits2_pos m) = 53 →
  shr_fexp prec emax (Z.pos m) e loc_Exact
  = ({| shr_m := Z.pos m; shr_r := false; shr_s := false |}, e).
Proof.
  intros He Hd. unfold shr_fexp. simpl Zdigits2. rewrite fexp_small by done.
  rewrite Hd. replace (53 + e - 53 - e) with 0 by lia. reflexivity.
Qed.

Lemma binary_round_aux_canonical (m : positive) (e : Z) :
  Z.pos (digits2_pos m) = 53 → -1074 ≤ e ≤ 971 →
  binary_round_aux prec emax false (Z.pos m) e loc_Exact = S754_finite false m e.
Proof.
  intros Hd He. unfold binary_round_aux.
  rewrite shr_fexp_canonical by lia. simpl.
  rewrite shr_fexp_canonical by lia. simpl.
  replace (e <=? emax - prec) with true; [done|].
  symmetry. apply Z.leb_le. unfold emax, prec. lia.
Qed.

Lemma normalize_small (z : Z) :
  0 < z < 2 ^ 53 →
  ∃ m e, binary_normalize prec emax z 0 false = S754_finite false m e
         ∧ -52 ≤ e ≤ 0 ∧ Z.pos (digits2_pos m) = 53.
Proof.
  intros [Hz0 Hz]. destruct z as [|p|p]; [lia| |lia].
  unfold binary_normalize, binary_round.
  pose proof (digits2_pos_bounds p) as [Hlo Hhi].
  assert (Hd : Z.pos (digits2_pos p) ≤ 53).
  { destruct (Z.le_gt_cases (Z.pos (digits2_pos p)) 53) as [|Hgt]; [done|].
    assert (2 ^ 53 ≤ 2 ^ (Z.pos (digits2_pos p) - 1)) by (apply Z.pow_le_mono_r; lia).
    lia. }
  rewrite fexp_small by lia. unfold shl_align.
  destruct (Z.pos (digits2_pos p) + 0 - 53 - 0) as [|q|q] eqn:Hq; [|lia|].
  - exists p, 0. split; [|lia]. apply binary_round_aux_canonical; lia.
  - destruct (iter_xO_spec p q) as [_ Hdig].
    exists (Pos.iter xO p q), (Z.pos (digits2_pos p) + 0 - 53). split; [|lia].
    apply binary_round_aux_canonical; lia.
Qed.

Lemma shr_1_bounds (mrs : shr_record) :
  0 ≤ shr_m mrs → 0 ≤ shr_m (shr_1 mrs) ≤ shr_m mrs.
Proof.
  destruct mrs as [m r s]. simpl. intros Hm.
  destruct m as [|[p|p|]|p]; simpl; lia.
Qed.

Lemma iter_shr_1_bounds (p : positive) (mrs : shr_record) :
  0 ≤ shr_m mrs → 0 ≤ shr_m (SpecFloat.iter_pos shr_1 p mrs) ≤ shr_m mrs.
Proof.
  revert mrs. induction p as [p IH|p IH|]; intros mrs Hm; simpl.
  - pose proof (shr_1_bounds mrs Hm) as H1.
    pose proof (IH (shr_1 mrs) ltac:(lia)) as H2.
    pose proof (IH (SpecFloat.iter_pos shr_1 p (shr_1 mrs)) ltac:(lia)) as H3. lia.
  - pose proof (IH mrs Hm) as H2.
    pose proof (IH (SpecFloat.iter_pos shr_1 p mrs) ltac:(lia)) as H3. lia.
  - by apply shr_1_bounds.
Qed.

Lemma shr_m_of_loc (m : Z) (l : location) : shr_m (shr_record_of_loc m l) = m.
Proof. by destruct l as [|[]]. Qed.

Lemma shr_fexp_bounds (m e : Z) (l : location) (k : Z) :
  0 ≤ k → 0 ≤ m < 2 ^ k →
  0 ≤ shr_m (shr_fexp prec emax m e l).1 ≤ m
  ∧ (shr_fexp prec emax m e l).2 ≤ Z.max e (Z.max (k + e - 53) (-1074)).
Proof.
  intros Hk Hm. unfold shr_fexp, shr.
  pose proof (Zdigits2_le m k Hk Hm) as Hd.
  assert (Hfexp : fexp prec emax (Zdigits2 m + e) ≤ Z.max (k + e - 53) (-1074)).
  { unfold fexp, emin, prec, emax. lia. }
  destruct (fexp prec emax (Zdigits2 m + e) - e) as [|n|n] eqn:Hn; simpl.
  - rewrite shr_m_of_loc. lia.
  - pose proof (iter_shr_1_bounds n (shr_record_of_loc m l)) as Hit.
    rewrite shr_m_of_loc in Hit. lia.
  - rewrite shr_m_of_loc. lia.
Qed.

Lemma round_nearest_even_bounds (m : Z) (l : location) :
  m ≤ round_nearest_even m l ≤ m + 1.
Proof. destruct l as [|[]]; simpl; try lia. destruct (Z.even m); lia. Qed.



Lemma to_Z_of_nat (n : nat) :
  Z.of_nat n < 2 ^ 53 → Uint63.to_Z (Uint63.of_Z (Z.of_nat n)) = Z.of_nat n.
Proof.
  intros Hn. rewrite Uint63.of_Z_spec. apply Z.mod_small.
  change Uint63.wB with (2 ^ 63). split; [lia|].
  eapply Z.lt_trans; [exact Hn|]. done.
Qed.

Lemma Prim2SF_float_of_nat (n : nat) :
  Z.of_nat n < 2 ^ 53 →
  Prim2SF (float_of_nat n) = S754_zero false ∧ n = 0%nat
  ∨ (0 < n)%nat
    ∧ ∃ m e, Prim2SF (float_of_nat n) = S754_finite false m e
             ∧ -52 ≤ e ≤ 0 ∧ Z.pos (digits2_pos m) = 53.
Proof.
  intros Hn. unfold float_of_nat. rewrite of_uint63_spec, to_Z_of_nat by done.
  destruct n as [|n]; [by left|]. right. split; [lia|].
  apply normalize_small. lia.
Qed.

End Binary64.

(** *** Exact quotients *)

Section Binary64Exact.
Local Open Scope Z_scope.

(** A normalised double divided by itself is exactly 1. *)
Lemma SFdiv_self (m : positive) (e : Z) :
  Z.pos (digits2_pos m) = 53 →
  SFdiv prec emax (S754_finite false m e) (S754_finite false m e) = Prim2SF 1.
Proof.
  intros Hd. unfold SFdiv, SFdiv_core_binary. simpl Zdigits2. rewrite Hd.
  replace (53 + e - (53 + e)) with 0 by lia. replace (e - e) with 0 by lia.
  change (Z.min (fexp prec emax 0) 0) with (-53).
  change (0 - -53) with 53.
  cbv iota beta.
  assert (Hdiv : Z.div_eucl (Z.shiftl (Z.pos m) 53) (Z.pos m) = (2 ^ 53, 0)).
  { rewrite Z.shiftl_mul_pow2 by lia.
    pose proof (Z.div_eucl_eq (Z.pos m * 2 ^ 53) (Z.pos m) ltac:(lia)) as Heq.
    pose proof (Z.mod_pos_bound (Z.pos m * 2 ^ 53) (Z.pos m) ltac:(lia)) as Hb.
    unfold Z.modulo in Hb.
    destruct (Z.div_eucl (Z.pos m * 2 ^ 53) (Z.pos m)) as [q r].
    assert (q = 2 ^ 53) by nia. subst q. f_equal. lia. }
  rewrite Hdiv.
  assert (Hloc : new_location (Z.pos m) 0 = loc_Exact).
  { unfold new_location. by destruct (Z.even _). }
  rewrite Hloc. reflexivity.
Qed.

Lemma int_truediv_self (n : nat) :
  (0 < n)%nat → Z.of_nat n < 2 ^ 53 → int_truediv n n = 1%float.
Proof.
  intros Hn0 Hn. apply Prim2SF_inj. unfold int_truediv. rewrite div_spec.
  destruct (Prim2SF_float_of_nat n Hn) as [[_ ?]|[_ (m & e & -> & _ & Hd)]]; [lia|].
  by apply SFdiv_self.
Qed.

Lemma int_truediv_zero (n : nat) :
  (0 < n)%nat → Z.of_nat n < 2 ^ 53 → int_truediv 0 n = 0%float.
Proof.
  intros Hn0 Hn. apply Prim2SF_inj. unfold int_truediv. rewrite div_spec.
  destruct (Prim2SF_float_of_nat n Hn) as [[_ ?]|[_ (m & e & -> & _ & Hd)]]; [lia|].
  reflexivity.
Qed.
End Binary64Exact.

(** *** Rounding error of the percentages

    The three operations behind [gc_percent + at_percent] (a division, a
    multiplication by 100 and an addition) each return the double nearest to
    the exact result, so each is off by a relative error of at most [2^-52].
    The lemmas below follow the rounding of [SpecFloat] step by step and
    measure the results as real numbers. *)

Section Binary64Error.
Local Open Scope Z_scope.

Lemma shr_1_m (mrs : shr_record) :
  0 ≤ shr_m mrs → shr_m (shr_1 mrs) = shr_m mrs `div` 2.
Proof.
  destruct mrs as [m r s]. simpl. intros Hm.
  destruct m as [|[p|p|]|p]; cbn [shr_m]; [done| | |done|lia].
  - apply (Z.div_unique _ _ _ 1); lia.
  - apply (Z.div_unique _ _ _ 0); lia.
Qed.

Lemma pow2_xI (p : positive) : 2 ^ Z.pos p~1 = 2 * (2 ^ Z.pos p * 2 ^ Z.pos p).
Proof.
  assert (Heq : Z.pos p~1 = 1 + (Z.pos p + Z.pos p)) by lia.
  rewrite Heq, !Z.pow_add_r by lia. done.
Qed.

Lemma pow2_xO (p : positive) : 2 ^ Z.pos p~0 = 2 ^ Z.pos p * 2 ^ Z.pos p.
Proof.
  assert (Heq : Z.pos p~0 = Z.pos p + Z.pos p) by lia.
  rewrite Heq. apply Z.pow_add_r; lia.
Qed.

Lemma iter_shr_1_m (p : positive) (mrs : shr_record) :
  0 ≤ shr_m mrs →
  shr_m (SpecFloat.iter_pos shr_1 p mrs) = shr_m mrs `div` 2 ^ Z.pos p.
Proof.
  revert mrs. induction p as [p IH|p IH|]; intros mrs Hm; simpl SpecFloat.iter_pos.
  - pose proof (shr_1_bounds mrs Hm) as H1.
    pose proof (iter_shr_1_bounds p (shr_1 mrs) ltac:(lia)) as H2.
    assert (0 < 2 ^ Z.pos p) by (apply Z.pow_pos_nonneg; lia).
    rewrite IH, IH, shr_1_m by lia.
    rewrite !Z.div_div by lia. by rewrite pow2_xI.
  - pose proof (iter_shr_1_bounds p mrs Hm) as H2.
    assert (0 < 2 ^ Z.pos p) by (apply Z.pow_pos_nonneg; lia).
    rewrite IH, IH by lia. rewrite Z.div_div by lia. by rewrite pow2_xO.
  - rewrite shr_1_m by done. done.
Qed.

Lemma Zdigits2_eq (m k : Z) :
  0 < k → 2 ^ (k - 1) ≤ m < 2 ^ k → Zdigits2 m = k.
Proof.
  intros Hk [Hlo Hhi].
  assert (0 < 2 ^ (k - 1)) by (apply Z.pow_pos_nonneg; lia).
  destruct m as [|p|p]; [lia| |lia]. simpl.
  pose proof (digits2_pos_bounds p) as [Hplo Hphi].
  destruct (Z.lt_trichotomy (Z.pos (digits2_pos p)) k) as [Hlt|[Heq|Hgt]]; [|done|].
  - assert (2 ^ Z.pos (digits2_pos p) ≤ 2 ^ (k - 1)) by (apply Z.pow_le_mono_r; lia).
    lia.
  - assert (2 ^ k ≤ 2 ^ (Z.pos (digits2_pos p) - 1)) by (apply Z.pow_le_mono_r; lia).
    lia.
Qed.

Lemma shr_fexp_eq (m e : Z) (l : location) (n : Z) :
  0 ≤ m → 0 ≤ n → fexp prec emax (Zdigits2 m + e) - e = n →
  shr_m (shr_fexp prec emax m e l).1 = m `div` 2 ^ n
  ∧ (shr_fexp prec emax m e l).2 = e + n.
Proof.
  intros Hm Hn Hfexp. unfold shr_fexp. rewrite Hfexp. unfold shr.
  destruct n as [|p|p]; [| |lia]; simpl.
  - rewrite shr_m_of_loc, Z.div_1_r. split; [done|lia].
  - rewrite iter_shr_1_m by (rewrite shr_m_of_loc; lia).
    by rewrite shr_m_of_loc.
Qed.

Lemma round_core (s : bool) (mx : positive) (ex : Z) (lx : location) (n : Z) :
  n = Z.pos (digits2_pos mx) - 53 →
  0 ≤ n → -1074 ≤ ex + n → ex + n + 1 ≤ 971 →
  ∃ m e m2, binary_round_aux prec emax s (Z.pos mx) ex lx = S754_finite s m e
    ∧ Z.pos (digits2_pos m) = 53
    ∧ (m2 = Z.pos mx `div` 2 ^ n ∨ m2 = Z.pos mx `div` 2 ^ n + 1)
    ∧ ((e = ex + n ∧ Z.pos m = m2) ∨ (e = ex + n + 1 ∧ 2 * Z.pos m = m2)).
Proof.
  intros Hn Hn0 Hlo Hhi. unfold binary_round_aux.
  pose proof (digits2_pos_bounds mx) as [Hdlo Hdhi].
  assert (Hpn : 0 < 2 ^ n) by (apply Z.pow_pos_nonneg; lia).
  assert (Hm1 : 2 ^ 52 ≤ Z.pos mx `div` 2 ^ n < 2 ^ 53).
  { replace (Z.pos (digits2_pos mx) - 1) with (n + 52) in Hdlo by lia.
    replace (Z.pos (digits2_pos mx)) with (n + 53) in Hdhi by lia.
    rewrite Z.pow_add_r in Hdlo, Hdhi by lia. split.
    - apply Z.div_le_lower_bound; lia.
    - apply Z.div_lt_upper_bound; lia. }
  destruct (shr_fexp_eq (Z.pos mx) ex lx n) as [Hs1 He1]; [lia|lia| |].
  { simpl Zdigits2. unfold fexp, emin, prec, emax. lia. }
  destruct (shr_fexp prec emax (Z.pos mx) ex lx) as [mrs1 e1].
  simpl in Hs1, He1. subst e1.
  pose proof (round_nearest_even_bounds (shr_m mrs1) (loc_of_shr_record mrs1)) as Hr.
  set (m2 := round_nearest_even (shr_m mrs1) (loc_of_shr_record mrs1)) in *.
  clearbody m2. rewrite Hs1 in Hr.
  change (2 ^ 52) with 4503599627370496 in Hm1.
  change (2 ^ 53) with 9007199254740992 in Hm1.
  destruct (decide (m2 = 9007199254740992)) as [Hover|Hnorm].
  - destruct (shr_fexp_eq m2 (ex + n) loc_Exact 1) as [Hs2 He2]; [lia|lia| |].
    { rewrite (Zdigits2_eq m2 54) by (subst m2; done).
      unfold fexp, emin, prec, emax. lia. }
    destruct (shr_fexp prec emax m2 (ex + n) loc_Exact) as [mrs2 e2].
    simpl in Hs2, He2. subst e2. rewrite Hs2, Hover.
    change (9007199254740992 `div` 2 ^ 1) with (Z.pos 4503599627370496).
    cbv iota.
    replace (ex + n + 1 <=? emax - prec) with true
      by (symmetry; apply Z.leb_le; unfold emax, prec; lia).
    exists 4503599627370496%positive, (ex + n + 1), m2.
    split_and!; [done|done|lia|right; split; [done|lia]].
  - assert (Hm2 : 4503599627370496 ≤ m2 < 9007199254740992) by lia.
    destruct (shr_fexp_eq m2 (ex + n) loc_Exact 0) as [Hs2 He2]; [lia|lia| |].
    { rewrite (Zdigits2_eq m2 53) by done.
      unfold fexp, emin, prec, emax. lia. }
    destruct (shr_fexp prec emax m2 (ex + n) loc_Exact) as [mrs2 e2].
    simpl in Hs2, He2. subst e2. rewrite Hs2, Z.div_1_r.
    destruct m2 as [|p2|p2]; [lia| |lia].
    replace (ex + n + 0 <=? emax - prec) with true
      by (symmetry; apply Z.leb_le; unfold emax, prec; lia).
    exists p2, (ex + n + 0), (Z.pos p2).
    split_and!; [done| |lia|left; split; [lia|done]].
    apply (Zdigits2_eq (Z.pos p2) 53); done.
Qed.

(** The real value of a positive finite double. *)
Definition pow2 (e : Z) : R := powerRZ 2 e.
Definition F2R (m : positive) (e : Z) : R := (IZR (Z.pos m) * pow2 e)%R.

Lemma pow2_pos (e : Z) : (0 < pow2 e)%R.
Proof. apply powerRZ_lt. lra. Qed.

Lemma pow2_add (a b : Z) : pow2 (a + b) = (pow2 a * pow2 b)%R.
Proof. apply powerRZ_add. lra. Qed.

Lemma pow2_IZR (n : Z) : 0 ≤ n → pow2 n = IZR (2 ^ n).
Proof.
  intros Hn. unfold pow2. rewrite <-(Z2Nat.id n) by done.
  by rewrite <-pow_powerRZ, pow_IZR.
Qed.

Lemma pow2_le (a b : Z) : a ≤ b → (pow2 a <= pow2 b)%R.
Proof.
  intros Hab. replace b with (a + (b - a)) by lia. rewrite pow2_add.
  rewrite (pow2_IZR (b - a)) by lia.
  assert (0 < 2 ^ (b - a)) by (apply Z.pow_pos_nonneg; lia).
  assert (1 <= IZR (2 ^ (b - a)))%R by (apply IZR_le; lia).
  pose proof (pow2_pos a). nra.
Qed.

Lemma round_rel (s : bool) (mx : positive) (ex : Z) (lx : location) (n : Z) (X : R) :
  n = Z.pos (digits2_pos mx) - 53 →
  0 ≤ n → -1074 ≤ ex + n → ex + n + 1 ≤ 971 →
  (IZR (Z.pos mx) * pow2 ex <= X)%R →
  (X <= (IZR (Z.pos mx) + 1) * pow2 ex)%R →
  ∃ m e, binary_round_aux prec emax s (Z.pos mx) ex lx = S754_finite s m e
    ∧ Z.pos (digits2_pos m) = 53
    ∧ ex + n ≤ e ≤ ex + n + 1
    ∧ (Rabs (F2R m e - X) <= X * pow2 (-52))%R.
Proof.
  intros Hn Hn0 Hlo Hhi HX1 HX2.
  destruct (round_core s mx ex lx n Hn Hn0 Hlo Hhi)
    as (m & e & m2 & Hbra & Hd & Hm2 & He).
  exists m, e. split_and!; [done|done|lia|lia|].
  set (m1 := Z.pos mx `div` 2 ^ n) in *.
  assert (Hpn : 0 < 2 ^ n) by (apply Z.pow_pos_nonneg; lia).
  assert (Hdiv : m1 * 2 ^ n ≤ Z.pos mx < (m1 + 1) * 2 ^ n).
  { pose proof (Z.div_mod (Z.pos mx) (2 ^ n) ltac:(lia)) as Hdm.
    pose proof (Z.mod_pos_bound (Z.pos mx) (2 ^ n) Hpn). fold m1 in Hdm. lia. }
  pose proof (digits2_pos_bounds mx) as [Hdlo _].
  assert (Hm1 : 2 ^ 52 ≤ m1).
  { replace (Z.pos (digits2_pos mx) - 1) with (n + 52) in Hdlo by lia.
    rewrite Z.pow_add_r in Hdlo by lia. apply Z.div_le_lower_bound; lia. }
  set (u := pow2 (ex + n)).
  assert (Hu : (0 < u)%R) by apply pow2_pos.
  assert (Hu_eq : u = (IZR (2 ^ n) * pow2 ex)%R).
  { unfold u. rewrite pow2_add, (pow2_IZR n) by done. ring. }
  assert (HF : F2R m e = (IZR m2 * u)%R).
  { unfold F2R, u. destruct He as [[-> <-]|[-> <-]]; [done|].
    rewrite pow2_add, mult_IZR.
    replace (pow2 1) with 2%R by (unfold pow2; simpl; lra). ring. }
  pose proof (pow2_pos ex) as Hpex.
  assert (HXlo : (IZR m1 * u <= X)%R).
  { eapply Rle_trans; [|exact HX1]. rewrite Hu_eq, <-Rmult_assoc, <-mult_IZR.
    apply Rmult_le_compat_r; [lra|]. apply IZR_le. lia. }
  assert (HXhi : (X <= (IZR m1 + 1) * u)%R).
  { eapply Rle_trans; [exact HX2|]. rewrite Hu_eq, <-Rmult_assoc.
    replace ((IZR m1 + 1) * IZR (2 ^ n))%R with (IZR ((m1 + 1) * 2 ^ n))
      by (rewrite mult_IZR, plus_IZR; done).
    replace (IZR (Z.pos mx) + 1)%R with (IZR (Z.pos mx + 1)) by (by rewrite plus_IZR).
    apply Rmult_le_compat_r; [lra|]. apply IZR_le. lia. }
  assert (Hu52 : (u * IZR (2 ^ 52) <= X)%R).
  { eapply Rle_trans; [|exact HXlo]. rewrite Rmult_comm.
    apply Rmult_le_compat_r; [lra|]. by apply IZR_le. }
  assert (Hp52 : (pow2 (-52) * IZR (2 ^ 52) = 1)%R).
  { rewrite <-(pow2_IZR 52) by lia. rewrite <-pow2_add. done. }
  assert (Hule : (u <= X * pow2 (-52))%R).
  { pose proof (pow2_pos (-52)) as Hp.
    replace u with (u * IZR (2 ^ 52) * pow2 (-52))%R by (rewrite Rmult_assoc, (Rmult_comm (IZR _)), Hp52; ring).
    apply Rmult_le_compat_r; lra. }
  rewrite HF. apply Rabs_le.
  destruct Hm2 as [-> | ->]; rewrite ?plus_IZR; nra.
Qed.

Lemma normalize_small_value (z : Z) :
  0 < z < 2 ^ 53 →
  ∃ m e, binary_normalize prec emax z 0 false = S754_finite false m e
         ∧ -52 ≤ e ≤ 0 ∧ Z.pos (digits2_pos m) = 53 ∧ F2R m e = IZR z.
Proof.
  intros [Hz0 Hz]. destruct z as [|p|p]; [lia| |lia].
  unfold binary_normalize, binary_round.
  pose proof (digits2_pos_bounds p) as [Hlo Hhi].
  assert (Hd : Z.pos (digits2_pos p) ≤ 53).
  { destruct (Z.le_gt_cases (Z.pos (digits2_pos p)) 53) as [|Hgt]; [done|].
    assert (2 ^ 53 ≤ 2 ^ (Z.pos (digits2_pos p) - 1)) by (apply Z.pow_le_mono_r; lia).
    lia. }
  rewrite fexp_small by lia. unfold shl_align.
  destruct (Z.pos (digits2_pos p) + 0 - 53 - 0) as [|q|q] eqn:Hq; [|lia|].
  - exists p, 0. split_and!; [|lia..| |].
    + apply binary_round_aux_canonical; lia.
    + lia.
    + unfold F2R, pow2. simpl. ring.
  - destruct (iter_xO_spec p q) as [Hval Hdig].
    exists (Pos.iter xO p q), (Z.pos (digits2_pos p) + 0 - 53).
    split_and!; [|lia..| |].
    + apply binary_round_aux_canonical; lia.
    + lia.
    + unfold F2R. rewrite Hval, mult_IZR.
      replace (Z.pos (digits2_pos p) + 0 - 53) with (- Z.pos q) by lia.
      rewrite <-(pow2_IZR (Z.pos q)) by lia. rewrite Rmult_assoc, <-pow2_add.
      replace (Z.pos q + - Z.pos q) with 0 by lia. unfold pow2. simpl. ring.
Qed.

Lemma float_of_nat_value (n : nat) :
  (0 < n)%nat → Z.of_nat n < 2 ^ 53 →
  ∃ m e, Prim2SF (float_of_nat n) = S754_finite false m e
         ∧ -52 ≤ e ≤ 0 ∧ Z.pos (digits2_pos m) = 53
         ∧ F2R m e = IZR (Z.of_nat n).
Proof.
  intros Hn0 Hn. unfold float_of_nat. rewrite of_uint63_spec, to_Z_of_nat by done.
  apply normalize_small_value. lia.
Qed.

Lemma F2R_pos (m : positive) (e : Z) : (0 < F2R m e)%R.
Proof.
  unfold F2R. apply Rmult_lt_0_compat; [|apply pow2_pos]. by apply IZR_lt.
Qed.

Lemma digits_53_bounds (m : positive) :
  Z.pos (digits2_pos m) = 53 → 2 ^ 52 ≤ Z.pos m < 2 ^ 53.
Proof. intros Hd. pose proof (digits2_pos_bounds m) as H. by rewrite Hd in H. Qed.

Lemma SFdiv_rel (m1 m2 : positive) (e1 e2 : Z) :
  Z.pos (digits2_pos m1) = 53 → Z.pos (digits2_pos m2) = 53 →
  -52 ≤ e1 ≤ 0 → -52 ≤ e2 ≤ 0 →
  ∃ m e, SFdiv prec emax (S754_finite false m1 e1) (S754_finite false m2 e2)
         = S754_finite false m e
    ∧ Z.pos (digits2_pos m) = 53 ∧ -105 ≤ e ≤ 1
    ∧ (Rabs (F2R m e - F2R m1 e1 / F2R m2 e2)
       <= F2R m1 e1 / F2R m2 e2 * pow2 (-52))%R.
Proof.
  intros Hd1 Hd2 He1 He2.
  pose proof (digits_53_bounds m1 Hd1) as Hm1.
  pose proof (digits_53_bounds m2 Hd2) as Hm2.
  unfold SFdiv, SFdiv_core_binary. simpl Zdigits2. rewrite Hd1, Hd2.
  rewrite fexp_small by lia.
  replace (Z.min (53 + e1 - (53 + e2) - 53) (e1 - e2)) with (e1 - e2 - 53) by lia.
  replace (e1 - e2 - (e1 - e2 - 53)) with 53 by lia. cbv iota beta.
  rewrite Z.shiftl_mul_pow2 by lia.
  pose proof (Z.div_eucl_eq (Z.pos m1 * 2 ^ 53) (Z.pos m2) ltac:(lia)) as Heq.
  pose proof (Z.mod_pos_bound (Z.pos m1 * 2 ^ 53) (Z.pos m2) ltac:(lia)) as Hr.
  assert (Hq : 2 ^ 52 ≤ (Z.pos m1 * 2 ^ 53) `div` Z.pos m2 < 2 ^ 54).
  { split.
    - apply Z.div_le_lower_bound; [lia|].
      change (2 ^ 53) with (2 * 2 ^ 52) in *. nia.
    - apply Z.div_lt_upper_bound; [lia|].
      change (2 ^ 54) with (4 * 2 ^ 52). change (2 ^ 53) with (2 * 2 ^ 52) in *. nia. }
  unfold Z.modulo in Hr. unfold Z.div in Hq.
  destruct (Z.div_eucl (Z.pos m1 * 2 ^ 53) (Z.pos m2)) as [q r].
  destruct q as [|pq|pq]; [change (2 ^ 52) with 4503599627370496 in Hq; lia| |lia].
  pose proof (digits2_pos_bounds pq) as [Hqlo Hqhi].
  assert (Hdq : 53 ≤ Z.pos (digits2_pos pq) ≤ 54).
  { split.
    - destruct (Z.le_gt_cases 53 (Z.pos (digits2_pos pq))) as [|Hlt]; [done|].
      assert (2 ^ Z.pos (digits2_pos pq) ≤ 2 ^ 52) by (apply Z.pow_le_mono_r; lia). lia.
    - destruct (Z.le_gt_cases (Z.pos (digits2_pos pq)) 54) as [|Hgt]; [done|].
      assert (2 ^ 54 ≤ 2 ^ (Z.pos (digits2_pos pq) - 1)) by (apply Z.pow_le_mono_r; lia).
      lia. }
  set (X := (F2R m1 e1 / F2R m2 e2)%R).
  assert (HB : (0 < IZR (Z.pos m2))%R) by (by apply IZR_lt).
  assert (HX : (X * IZR (Z.pos m2)
                = (IZR (Z.pos m2) * IZR (Z.pos pq) + IZR r) * pow2 (e1 - e2 - 53))%R).
  { unfold X, F2R. rewrite <-mult_IZR, <-plus_IZR, <-Heq, mult_IZR.
    rewrite <-(pow2_IZR 53) by lia.
    replace e1 with ((e1 - e2 - 53) + (e2 + 53)) at 1 by lia.
    rewrite !pow2_add. pose proof (pow2_pos e2). field. lra. }
  destruct (round_rel (xorb false false) pq (e1 - e2 - 53)
              (new_location (Z.pos m2) r) (Z.pos (digits2_pos pq) - 53) X)
    as (m & e & Hbra & Hd & He & Herr); [done|lia|lia|lia| | |].
  - pose proof (pow2_pos (e1 - e2 - 53)) as HP.
    apply (Rmult_le_reg_r (IZR (Z.pos m2))); [done|]. rewrite HX.
    assert (0 <= IZR r)%R by (apply IZR_le; lia). nra.
  - pose proof (pow2_pos (e1 - e2 - 53)) as HP.
    apply (Rmult_le_reg_r (IZR (Z.pos m2))); [done|]. rewrite HX.
    assert (IZR r <= IZR (Z.pos m2))%R by (apply IZR_le; lia). nra.
  - exists m, e. split_and!; [done|done|lia|lia|done].
Qed.

Lemma SFmul100_rel (m : positive) (e : Z) :
  Z.pos (digits2_pos m) = 53 → -200 ≤ e ≤ 100 →
  ∃ m' e', SFmul prec emax (S754_finite false m e)
             (S754_finite false 7036874417766400 (-46))
           = S754_finite false m' e'
    ∧ Z.pos (digits2_pos m') = 53 ∧ e + 6 ≤ e' ≤ e + 8
    ∧ (Rabs (F2R m' e' - F2R m e * 100) <= F2R m e * 100 * pow2 (-52))%R.
Proof.
  intros Hd He. pose proof (digits_53_bounds m Hd) as Hm.
  unfold SFmul.
  pose proof (digits2_pos_bounds (m * 7036874417766400)) as [Hplo Hphi].
  rewrite Pos2Z.inj_mul in Hplo, Hphi.
  assert (Hdp : 105 ≤ Z.pos (digits2_pos (m * 7036874417766400)) ≤ 106).
  { split.
    - destruct (Z.le_gt_cases 105 (Z.pos (digits2_pos (m * 7036874417766400))))
        as [|Hlt]; [done|].
      assert (2 ^ Z.pos (digits2_pos (m * 7036874417766400)) ≤ 2 ^ 104)
        by (apply Z.pow_le_mono_r; lia).
      change (2 ^ 104) with (2 ^ 52 * 2 ^ 52) in *. nia.
    - destruct (Z.le_gt_cases (Z.pos (digits2_pos (m * 7036874417766400))) 106)
        as [|Hgt]; [done|].
      assert (2 ^ 106 ≤ 2 ^ (Z.pos (digits2_pos (m * 7036874417766400)) - 1))
        by (apply Z.pow_le_mono_r; lia).
      change (2 ^ 106) with (2 ^ 53 * 2 ^ 53) in *. nia. }
  assert (HX : (IZR (Z.pos (m * 7036874417766400)) * pow2 (e + -46)
                = F2R m e * 100)%R).
  { unfold F2R. rewrite Pos2Z.inj_mul, mult_IZR, pow2_add.
    assert (H100 : (IZR 7036874417766400 * pow2 (-46) = 100)%R).
    { change 7036874417766400 with (100 * 2 ^ 46). rewrite mult_IZR.
      rewrite <-(pow2_IZR 46) by lia. rewrite Rmult_assoc, <-pow2_add.
      change (pow2 (46 + -46)) with (pow2 0). unfold pow2. simpl. lra. }
    rewrite <-H100. ring. }
  destruct (round_rel (xorb false false) (m * 7036874417766400) (e + -46)
              loc_Exact (Z.pos (digits2_pos (m * 7036874417766400)) - 53)
              (F2R m e * 100)%R)
    as (m' & e' & Hbra & Hd' & He' & Herr); [done|lia|lia|lia| | |].
  - rewrite HX. lra.
  - rewrite <-HX. pose proof (pow2_pos (e + -46)). nra.
  - exists m', e'. split_and!; [done|done|lia|lia|done].
Qed.

Lemma shl_align_fst (m : positive) (e ez : Z) :
  ez ≤ e → Z.pos (shl_align m e ez).1 = Z.pos m * 2 ^ (e - ez).
Proof.
  intros Hle. unfold shl_align.
  destruct (ez - e) as [|d|d] eqn:Hd; simpl.
  - replace (e - ez) with 0 by lia. lia.
  - lia.
  - destruct (iter_xO_spec m d) as [-> _]. f_equal. f_equal. lia.
Qed.

Lemma SFadd_rel (ma mb : positive) (ea eb : Z) :
  Z.pos (digits2_pos ma) = 53 → Z.pos (digits2_pos mb) = 53 →
  -200 ≤ ea ≤ 100 → -200 ≤ eb ≤ 100 →
  ∃ m e, SFadd prec emax (S754_finite false ma ea) (S754_finite false mb eb)
         = S754_finite false m e
    ∧ Z.pos (digits2_pos m) = 53
    ∧ (Rabs (F2R m e - (F2R ma ea + F2R mb eb))
       <= (F2R ma ea + F2R mb eb) * pow2 (-52))%R.
Proof.
  intros Hda Hdb Hea Heb.
  pose proof (digits_53_bounds ma Hda) as Hma.
  pose proof (digits_53_bounds mb Hdb) as Hmb.
  unfold SFadd. set (ez := Z.min ea eb).
  pose proof (shl_align_fst ma ea ez ltac:(lia)) as Ha.
  pose proof (shl_align_fst mb eb ez ltac:(lia)) as Hb.
  set (a := (shl_align ma ea ez).1) in *. set (b := (shl_align mb eb ez).1) in *.
  simpl cond_Zopp. change (Z.pos a + Z.pos b) with (Z.pos (a + b)).
  unfold binary_normalize, binary_round.
  assert (Hpa : 0 < 2 ^ (ea - ez)) by (apply Z.pow_pos_nonneg; lia).
  assert (Hpb : 0 < 2 ^ (eb - ez)) by (apply Z.pow_pos_nonneg; lia).
  assert (Hsum : Z.pos (a + b) = Z.pos ma * 2 ^ (ea - ez) + Z.pos mb * 2 ^ (eb - ez))
    by lia.
  assert (Hlarge : 2 ^ 53 ≤ Z.pos (a + b)).
  { change (2 ^ 53) with (2 ^ 52 + 2 ^ 52). nia. }
  assert (Hsmall : Z.pos (a + b) < 2 ^ 355).
  { assert (2 ^ (ea - ez) ≤ 2 ^ 300) by (apply Z.pow_le_mono_r; lia).
    assert (2 ^ (eb - ez) ≤ 2 ^ 300) by (apply Z.pow_le_mono_r; lia).
    change (2 ^ 355) with (2 ^ 53 * 2 ^ 300 * 4). nia. }
  pose proof (digits2_pos_bounds (a + b)) as [Hdlo Hdhi].
  assert (Hd : 54 ≤ Z.pos (digits2_pos (a + b)) ≤ 355).
  { split.
    - destruct (Z.le_gt_cases 54 (Z.pos (digits2_pos (a + b)))) as [|Hlt]; [done|].
      assert (2 ^ Z.pos (digits2_pos (a + b)) ≤ 2 ^ 53) by (apply Z.pow_le_mono_r; lia).
      lia.
    - destruct (Z.le_gt_cases (Z.pos (digits2_pos (a + b))) 355) as [|Hgt]; [done|].
      assert (2 ^ 355 ≤ 2 ^ (Z.pos (digits2_pos (a + b)) - 1))
        by (apply Z.pow_le_mono_r; lia).
      lia. }
  assert (Halign : shl_align (a + b) ez
                     (fexp prec emax (Z.pos (digits2_pos (a + b)) + ez))
                   = ((a + b)%positive, ez)).
  { unfold shl_align. rewrite fexp_small by lia.
    destruct (Z.pos (digits2_pos (a + b)) + ez - 53 - ez) eqn:Hdiff; [done|done|lia]. }
  rewrite Halign.
  assert (HX : (IZR (Z.pos (a + b)) * pow2 ez = F2R ma ea + F2R mb eb)%R).
  { unfold F2R. rewrite Hsum, plus_IZR, !mult_IZR.
    rewrite <-(pow2_IZR (ea - ez)), <-(pow2_IZR (eb - ez)) by lia.
    rewrite Rmult_plus_distr_r, !Rmult_assoc, <-!pow2_add.
    by replace (ea - ez + ez) with ea by lia; replace (eb - ez + ez) with eb by lia. }
  destruct (round_rel false (a + b) ez loc_Exact
              (Z.pos (digits2_pos (a + b)) - 53) (F2R ma ea + F2R mb eb)%R)
    as (m & e & Hbra & Hd' & He' & Herr); [done|lia|lia|lia| | |].
  - rewrite HX. lra.
  - rewrite <-HX. pose proof (pow2_pos ez). nra.
  - by exists m, e.
Qed.

(** The unit roundoff of binary64. *)
Definition eta : R := pow2 (-52).

Lemma eta_spec : (eta * 4503599627370496 = 1)%R.
Proof.
  unfold eta. change 4503599627370496%R with (IZR (2 ^ 52)).
  rewrite <-(pow2_IZR 52) by lia. rewrite <-pow2_add. unfold pow2. simpl. lra.
Qed.

Lemma eta_bounds : (0 < eta < 1 / 1000000000)%R.
Proof. pose proof eta_spec. lra. Qed.

Lemma pow2_eta (k : Z) : 0 ≤ k → pow2 (k - 52) = (IZR (2 ^ k) * eta)%R.
Proof.
  intros Hk. unfold eta. rewrite <-(pow2_IZR k) by done. rewrite <-pow2_add.
  f_equal.
Qed.

Lemma Rabs_rel (v x : R) :
  (Rabs (v - x) <= x * eta → x * (1 - eta) <= v <= x * (1 + eta))%R.
Proof. intros H. unfold Rabs in H. destruct (Rcase_abs _); lra. Qed.

(** [(a / L) * 100] on two counts: the value of the double, with the two
    roundings it went through. *)
Lemma percent_value (a L : nat) :
  (0 < a ≤ L)%nat → Z.of_nat L < 2 ^ 53 →
  ∃ m e, Prim2SF (int_truediv a L * 100) = S754_finite false m e
    ∧ Z.pos (digits2_pos m) = 53 ∧ -200 ≤ e ≤ 100
    ∧ (100 * (IZR (Z.of_nat a) / IZR (Z.of_nat L)) * ((1 - eta) * (1 - eta))
       <= F2R m e
       <= 100 * (IZR (Z.of_nat a) / IZR (Z.of_nat L)) * ((1 + eta) * (1 + eta)))%R.
Proof.
  intros Ha HL.
  destruct (float_of_nat_value a) as (ma & ea & Hfa & Hea & Hda & Hva); [lia|lia|].
  destruct (float_of_nat_value L) as (ml & el & Hfl & Hel & Hdl & Hvl); [lia|lia|].
  destruct (SFdiv_rel ma ml ea el) as (mq & eq & Hq & Hdq & Heq & Herrq); [done..|].
  destruct (SFmul100_rel mq eq) as (mp & ep & Hp & Hdp & Hep & Herrp); [done|lia|].
  exists mp, ep.
  assert (Hval : Prim2SF (int_truediv a L * 100) = S754_finite false mp ep).
  { rewrite mul_spec. unfold int_truediv. rewrite div_spec, Hfa, Hfl.
    unfold SF64mul, SF64div. rewrite Hq. exact Hp. }
  split_and!; [done|done|lia|lia|..].
  all: rewrite Hva, Hvl in Herrq.
  all: set (x := (IZR (Z.of_nat a) / IZR (Z.of_nat L))%R) in *.
  all: assert (Hx : (0 < x)%R)
    by (apply Rdiv_lt_0_compat; apply IZR_lt; lia).
  all: pose proof eta_bounds as Heta.
  all: apply Rabs_rel in Herrq; fold eta in Herrp; apply Rabs_rel in Herrp.
  all: destruct Herrq as [Hq1 Hq2], Herrp as [Hp1 Hp2].
  - assert (0 <= (F2R mq eq - x * (1 - eta)) * (1 - eta))%R
      by (apply Rmult_le_pos; lra).
    lra.
  - assert (0 <= (x * (1 + eta) - F2R mq eq) * (1 + eta))%R
      by (apply Rmult_le_pos; lra).
    lra.
Qed.

(** The sum of the two percentages of a nonempty sequence with both kinds of
    bases: a double of exponent [-46] whose mantissa is within 4 of that of
    100, which is [7036874417766400 * 2^-46]. *)
Lemma percent_sum_value (a b L : nat) :
  (0 < a)%nat → (0 < b)%nat → (a + b = L)%nat → Z.of_nat L < 2 ^ 53 →
  ∃ m, Prim2SF (int_truediv a L * 100 + int_truediv b L * 100)
       = S754_finite false m (-46)
    ∧ 7036874417766396 ≤ Z.pos m ≤ 7036874417766404.
Proof.
  intros Ha Hb Hab HL.
  destruct (percent_value a L) as (m1 & e1 & Hv1 & Hd1 & He1 & Hlo1 & Hhi1); [lia|done|].
  destruct (percent_value b L) as (m2 & e2 & Hv2 & Hd2 & He2 & Hlo2 & Hhi2); [lia|done|].
  destruct (SFadd_rel m1 m2 e1 e2) as (m & e & Hs & Hd & Herr); [done..|].
  fold eta in Herr. apply Rabs_rel in Herr. destruct Herr as [Hs1 Hs2].
  pose proof eta_bounds as Heta. pose proof eta_spec as Hspec.
  set (x := (IZR (Z.of_nat a) / IZR (Z.of_nat L))%R) in *.
  assert (Hy : (IZR (Z.of_nat b) / IZR (Z.of_nat L) = 1 - x)%R).
  { unfold x. replace (Z.of_nat L) with (Z.of_nat a + Z.of_nat b) by lia.
    rewrite plus_IZR.
    assert (0 < IZR (Z.of_nat a))%R by (apply IZR_lt; lia).
    assert (0 < IZR (Z.of_nat b))%R by (apply IZR_lt; lia).
    field. lra. }
  rewrite Hy in Hlo2, Hhi2.
  set (p := (F2R m1 e1 + F2R m2 e2)%R) in *.
  assert (Hp1 : (100 * ((1 - eta) * (1 - eta)) <= p)%R) by (unfold p; lra).
  assert (Hp2 : (p <= 100 * ((1 + eta) * (1 + eta)))%R) by (unfold p; lra).
  assert (Hee : (eta * eta <= eta * (1 / 1000000000))%R)
    by (apply Rmult_le_compat_l; lra).
  assert (Hee0 : (0 <= eta * eta)%R) by (apply Rmult_le_pos; lra).
  assert (Heee : (eta * eta * eta <= eta * eta * (1 / 1000000000))%R)
    by (apply Rmult_le_compat_l; lra).
  assert (Heee0 : (0 <= eta * eta * eta)%R) by (apply Rmult_le_pos; lra).
  assert (Hv1' : (100 * ((1 - eta) * (1 - eta)) * (1 - eta) <= F2R m e)%R).
  { assert (0 <= (p - 100 * ((1 - eta) * (1 - eta))) * (1 - eta))%R
      by (apply Rmult_le_pos; lra).
    lra. }
  assert (Hv2' : (F2R m e <= 100 * ((1 + eta) * (1 + eta)) * (1 + eta))%R).
  { assert (0 <= (100 * ((1 + eta) * (1 + eta)) - p) * (1 + eta))%R
      by (apply Rmult_le_pos; lra).
    lra. }
  pose proof (digits_53_bounds m Hd) as Hm.
  assert (Hmlo : (4503599627370496 <= IZR (Z.pos m))%R).
  { change 4503599627370496%R with (IZR (2 ^ 52)). apply IZR_le. lia. }
  assert (Hmhi : (IZR (Z.pos m) < 9007199254740992)%R).
  { change 9007199254740992%R with (IZR (2 ^ 53)). apply IZR_lt. lia. }
  assert (He : e = -46).
  { destruct (Z.lt_trichotomy e (-46)) as [Hlt|[->|Hgt]]; [exfalso|done|exfalso].
    - pose proof (pow2_le e (-47) ltac:(lia)) as Hle.
      change (-47) with (5 - 52) in Hle. rewrite (pow2_eta 5) in Hle by lia.
      change (IZR (2 ^ 5)) with 32%R in Hle.
      pose proof (pow2_pos e) as Hpe.
      assert (F2R m e <= 9007199254740992 * (32 * eta))%R.
      { unfold F2R. apply Rmult_le_compat; lra. }
      lra.
    - pose proof (pow2_le (-45) e ltac:(lia)) as Hle.
      change (-45) with (7 - 52) in Hle. rewrite (pow2_eta 7) in Hle by lia.
      change (IZR (2 ^ 7)) with 128%R in Hle.
      assert (4503599627370496 * (128 * eta) <= F2R m e)%R.
      { unfold F2R. apply Rmult_le_compat; lra. }
      lra. }
  subst e. exists m. split.
  { rewrite add_spec, Hv1, Hv2. exact Hs. }
  unfold F2R in Hv1', Hv2'. change (-46) with (6 - 52) in Hv1', Hv2'.
  rewrite (pow2_eta 6) in Hv1', Hv2' by lia.
  change (IZR (2 ^ 6)) with 64%R in Hv1', Hv2'.
  set (w := (IZR (Z.pos m) * eta)%R).
  assert (Hw : IZR (Z.pos m) = (4503599627370496 * w)%R).
  { unfold w. transitivity (IZR (Z.pos m) * (eta * 4503599627370496))%R;
      [rewrite Hspec; ring|ring]. }
  assert (Hc2 : (4503599627370496 * (eta * eta) = eta)%R).
  { transitivity (eta * 4503599627370496 * eta)%R; [ring|rewrite Hspec; ring]. }
  assert (Hc3 : (4503599627370496 * (eta * eta * eta) = eta * eta)%R).
  { transitivity (eta * 4503599627370496 * (eta * eta))%R;
      [ring|rewrite Hspec; ring]. }
  assert (Hw1 : (64 * w <= 100 * ((1 + eta) * (1 + eta)) * (1 + eta))%R)
    by (unfold w; lra).
  assert (Hw2 : (100 * ((1 - eta) * (1 - eta)) * (1 - eta) <= 64 * w)%R)
    by (unfold w; lra).
  clearbody w.
  assert (Hlo : (IZR 7036874417766395 < IZR (Z.pos m))%R) by lra.
  assert (Hhi : (IZR (Z.pos m) < IZR 7036874417766405)%R) by lra.
  apply lt_IZR in Hlo, Hhi. lia.
Qed.

Lemma percent_sum_mantissa (a b L : nat) :
  (0 < L)%nat → (a + b = L)%nat → Z.of_nat L < 2 ^ 53 →
  ∃ m, Prim2SF (int_truediv a L * 100 + int_truediv b L * 100)
       = S754_finite false m (-46)
    ∧ 7036874417766396 ≤ Z.pos m ≤ 7036874417766404.
Proof.
  intros HL0 Hab HL.
  destruct (decide (a = 0%nat)) as [->|Ha].
  { replace b with L by lia.
    rewrite (int_truediv_self _ HL0 HL), (int_truediv_zero _ HL0 HL).
    by exists 7036874417766400%positive. }
  destruct (decide (b = 0%nat)) as [->|Hb].
  { replace a with L by lia.
    rewrite (int_truediv_self _ HL0 HL), (int_truediv_zero _ HL0 HL).
    by exists 7036874417766400%positive. }
  apply percent_sum_value; lia.
Qed.

Lemma SFleb_same_exponent (m1 m2 : positive) (e : Z) :
  Z.pos m1 ≤ Z.pos m2 →
  SFleb (S754_finite false m1 e) (S754_finite false m2 e) = true.
Proof.
  intros Hle. unfold SFleb, SFcompare. rewrite Z.compare_refl.
  change (Pos.compare_cont Eq m1 m2) with (Pos.compare m1 m2).
  destruct (Pos.compare_spec m1 m2); [done|done|lia].
Qed.

(** In Python's terms: [100 - 2**-44 <= s <= 100 + 2**-44]. *)
Lemma percent_sum_near_100 (a b L : nat) :
  (0 < L)%nat → (a + b = L)%nat → Z.of_nat L < 2 ^ 53 →
  (100 - 0x1p-44 <=? int_truediv a L * 100 + int_truediv b L * 100)%float = true
  ∧ (int_truediv a L * 100 + int_truediv b L * 100 <=? 100 + 0x1p-44)%float = true.
Proof.
  intros HL0 Hab HL.
  destruct (percent_sum_mantissa a b L HL0 Hab HL) as (m & Hm & Hlo & Hhi).
  rewrite !leb_spec, Hm.
  change (Prim2SF (100 - 0x1p-44))
    with (S754_finite false 7036874417766396 (-46)).
  change (Prim2SF (100 + 0x1p-44))
    with (S754_finite false 7036874417766404 (-46)).
  split; by apply SFleb_same_exponent.
Qed.
End Binary64Error.

(** C5, as the code has it. For every cleaned sequence [S] of length [L],
    with [gc] the number of G and C in [S] and [at] the number of A and T in
    [S]: [counts] records for every symbol its number of occurrences in [S];
    the four per-symbol counts sum to [L], and so do [gc] and [at], so that
    the exact percentages [100 * gc / L] and [100 * at / L] sum to 100;
    [gc_percent] and [at_percent] are the doubles [(gc / L) * 100] and
    [(at / L) * 100] (with the divisor 1 for the empty sequence). For a
    nonempty sequence (shorter than [2^53], where counts convert to doubles
    exactly) their double-precision sum is 100 up to rounding: it lies between
    [100 - 2^-44] and [100 + 2^-44], being a double of exponent [-46] whose
    mantissa is within 4 of that of 100, which is [7036874417766400 * 2^-46];
    and it is exactly 100 when [S] has no G and no C, or no A and no T.
    [mw_da] is [L * 330.0] and [mw_kda] is [mw_da / 1000], both 0 for the
    empty sequence. *)
Theorem composition_counts_and_weight (up : N → str) (raw : str) :
  let S := clean_dna up raw in
  let st := base_counts_and_stats S in
  let L := length S in
  let gc := occurrences 71 S + occurrences 67 S in
  let at_ := occurrences 65 S + occurrences 84 S in
  (∀ c, dict_get (counts st) c 0 = occurrences c S)
  ∧ dict_get (counts st) 65 0 + dict_get (counts st) 84 0
    + dict_get (counts st) 67 0 + dict_get (counts st) 71 0 = L
  ∧ total st = L
  ∧ gc + at_ = L
  ∧ 100 * gc + 100 * at_ = 100 * L
  ∧ gc_percent st = (int_truediv gc (Nat.max L 1) * 100)%float
  ∧ at_percent st = (int_truediv at_ (Nat.max L 1) * 100)%float
  ∧ (S ≠ [] → (Z.of_nat L < 2 ^ 53)%Z →
       (100 - 0x1p-44 <=? gc_percent st + at_percent st)%float = true
       ∧ (gc_percent st + at_percent st <=? 100 + 0x1p-44)%float = true
       ∧ (∃ m : positive,
            Prim2SF (gc_percent st + at_percent st) = S754_finite false m (-46)
            ∧ (7036874417766396 ≤ Z.pos m ≤ 7036874417766404)%Z)
       ∧ (gc = 0 ∨ at_ = 0 → (gc_percent st + at_percent st)%float = 100%float))
  ∧ mw_da st = (float_of_nat L * 330)%float
  ∧ mw_kda st = (mw_da st / 1000)%float
  ∧ (S = [] → mw_da st = 0%float ∧ mw_kda st = 0%float).
Proof.
  intros S st L gc at_.
  assert (Hcounts : ∀ c, dict_get (counts st) c 0 = occurrences c S).
  { intros c. unfold st. simpl counts. apply dict_get_Counter. }
  assert (Hsum : gc + at_ = L).
  { apply occurrences_bases, clean_dna_bases. }
  assert (Hgc : gc_percent st = (int_truediv gc (Nat.max L 1) * 100)%float).
  { unfold gc. rewrite <-!Hcounts. unfold st. simpl gc_percent.
    by rewrite total_guard. }
  assert (Hat : at_percent st = (int_truediv at_ (Nat.max L 1) * 100)%float).
  { unfold at_. rewrite <-!Hcounts. unfold st. simpl at_percent.
    by rewrite total_guard. }
  split_and!; try done.
  - rewrite !Hcounts. unfold gc, at_ in Hsum. lia.
  - lia.
  - intros HS Hlen.
    assert (HL : 0 < L) by (unfold L; destruct S; [done|simpl; lia]).
    rewrite Hgc, Hat. replace (Nat.max L 1) with L by lia.
    destruct (percent_sum_near_100 gc at_ L HL Hsum Hlen) as [Hlo Hhi].
    split_and!; [done|done|by apply percent_sum_mantissa|].
    intros [Hz|Hz]; rewrite Hz in Hsum |- *; simpl in Hsum.
    + rewrite Hsum, (int_truediv_self _ HL Hlen), (int_truediv_zero _ HL Hlen).
      done.
    + rewrite Nat.add_0_r in Hsum.
      rewrite Hsum, (int_truediv_self _ HL Hlen), (int_truediv_zero _ HL Hlen).
      done.
  - unfold st. by intros ->.
Qed.

(** C5, counterexample: on the cleaned sequence GAT the two percentages are
    the doubles nearest to 33.33... and 66.66..., and their double-precision
    sum is below 100. *)
Lemma percent_sum_GAT_below_100 :
  let st := base_counts_and_stats (py "GAT") in
  clean_dna (λ c, [c]) (py "GAT") = py "GAT"
  ∧ PrimFloat.eqb (gc_percent st + at_percent st) 100 = false
  ∧ PrimFloat.ltb (gc_percent st + at_percent st) 100 = true.
Proof. vm_compute. done. Qed.

(** The rounding goes both ways: with 2 G and 9 A the sum is above 100. *)
Lemma percent_sum_above_100 :
  let st := base_counts_and_stats (py "GGAAAAAAAAA") in
  clean_dna (λ c, [c]) (py "GGAAAAAAAAA") = py "GGAAAAAAAAA"
  ∧ PrimFloat.ltb 100 (gc_percent st + at_percent st) = true.
Proof. vm_compute. done. Qed.


(** C7. On the empty sequence the composition statistics are [total = 0],
    [gc_percent = 0] (the quotient [0 / 1] times 100, the divisor being 1) and
    [at_gc_ratio] the infinity sentinel; the motif scan and the ORF scan both
    return the empty list. *)
Theorem empty_sequence_degenerate :
  let st := base_counts_and_stats [] in
  total st = 0
  ∧ counts st = ∅
  ∧ gc_percent st = (int_truediv 0 1 * 100)%float
  ∧ gc_percent st = 0%float
  ∧ at_percent st = 0%float
  ∧ at_gc_ratio st = float_inf
  ∧ mw_da st = 0%float
  ∧ mw_kda st = 0%float
  ∧ find_motifs [] DNA_MEANINGS = []
  ∧ find_orfs_all_frames [] = [].
Proof. vm_compute. done. Qed.

(** ** The stable sort *)

Lemma filter_sublist_mono {A} (P : A → Prop) `{!∀ x, Decision (P x)} (l1 l2 : list A) :
  l1 `sublist_of` l2 → filter P l1 `sublist_of` filter P l2.
Proof.
  induction 1 as [|x l1 l2 _ IH|x l1 l2 _ IH]; [done|..];
    rewrite ?filter_cons; case_decide; try done;
    by (try apply sublist_skip; try apply sublist_cons).
Qed.

Section Sorted.
Context {A : Type} (key : A → nat).

Lemma insert_by_perm (x : A) (l : list A) : insert_by key x l ≡ₚ x :: l.
Proof.
  induction l as [|y l IH]; simpl; [done|].
  case_bool_decide; [done|]. rewrite IH. apply Permutation_swap.
Qed.

Lemma sorted_perm (l : list A) : sorted l key ≡ₚ l.
Proof.
  unfold sorted. induction l as [|x l IH]; simpl; [done|].
  by rewrite insert_by_perm, IH.
Qed.

Lemma insert_by_sorted (x : A) (l : list A) :
  StronglySorted (λ a b, key a ≤ key b) l →
  StronglySorted (λ a b, key a ≤ key b) (insert_by key x l).
Proof.
  induction 1 as [|y l Hl IH Hy]; simpl.
  - repeat constructor.
  - case_bool_decide as Hxy.
    + constructor; [by constructor|]. constructor; [done|].
      eapply Forall_impl; [exact Hy|]. simpl. intros; lia.
    + constructor; [done|].
      rewrite insert_by_perm. constructor; [lia|done].
Qed.

Lemma sorted_sorted (l : list A) :
  StronglySorted (λ a b, key a ≤ key b) (sorted l key).
Proof.
  unfold sorted. induction l as [|x l IH]; simpl; [constructor|].
  by apply insert_by_sorted.
Qed.

(** Stability: the elements of any one key keep their relative order. *)
Lemma insert_by_stable (k : nat) (x : A) (l : list A) :
  filter (λ a, key a = k) (insert_by key x l) = filter (λ a, key a = k) (x :: l).
Proof.
  induction l as [|y l IH]; simpl; [done|].
  case_bool_decide as Hxy; [done|].
  rewrite filter_cons, IH, !filter_cons.
  repeat case_decide; try done; lia.
Qed.

Lemma sorted_stable (k : nat) (l : list A) :
  filter (λ a, key a = k) (sorted l key) = filter (λ a, key a = k) l.
Proof.
  unfold sorted. induction l as [|x l IH]; simpl; [done|].
  by rewrite insert_by_stable, !filter_cons, IH.
Qed.

(** Two elements of equal key that follow one another in the sorted list
    follow one another in the input. *)
Lemma sorted_ties (l : list A) (a b : A) :
  [a; b] `sublist_of` sorted l key → key a = key b → [a; b] `sublist_of` l.
Proof.
  intros Hsub Hab.
  assert (Hf : filter (λ c, key c = key a) [a; b] = [a; b]).
  { rewrite !filter_cons, filter_nil. repeat case_decide; done. }
  rewrite <-Hf. etrans; [|apply (sublist_filter (λ c, key c = key a))].
  rewrite <-(sorted_stable (key a) l). by apply filter_sublist_mono.
Qed.
End Sorted.

(** ** MotifScanner *)

(** [sub] occurs in [s] at index [k]. For a motif that is not empty this is
    [s[k:k+len(sub)] == sub], and it implies [k < len(s)]. *)
Definition occurs_at (s sub : str) (k : nat) : Prop :=
  take (length sub) (drop k s) = sub.

#[global] Instance occurs_at_dec (s sub : str) (k : nat) : Decision (occurs_at s sub k).
Proof. unfold occurs_at. apply _. Defined.

(** The indices from [start0] on at which [sub] occurs, in ascending order. *)
Definition positions (s sub : str) (start0 : nat) : list nat :=
  filter (λ k, occurs_at s sub k) (seq start0 (S (length s) - start0)).

Lemma occurs_at_slice (s sub : str) (k : nat) :
  occurs_at s sub k ↔ slice s k (k + length sub) = sub.
Proof. unfold occurs_at, slice. by replace (k + length sub - k) with (length sub) by lia. Qed.

Lemma occurs_at_bound (s sub : str) (k : nat) :
  sub ≠ [] → occurs_at s sub k → k + length sub ≤ length s.
Proof.
  unfold occurs_at. intros Hne Hk.
  assert (Hlen : length (take (length sub) (drop k s)) = length sub) by by rewrite Hk.
  rewrite length_take, length_drop in Hlen.
  assert (0 < length sub) by (destruct sub; [done|simpl; lia]). lia.
Qed.

Lemma find_at_Some (sub t : str) (i k : nat) :
  find_at sub t i = Some k →
  i ≤ k ∧ take (length sub) (drop (k - i) t) = sub
  ∧ ∀ j, i ≤ j < k → take (length sub) (drop (j - i) t) ≠ sub.
Proof.
  revert i; induction t as [|c t IH]; intros i; simpl.
  - case_bool_decide as Hp; intros [= <-].
    rewrite Nat.sub_diag. split_and!; [lia|done|intros; lia].
  - case_bool_decide as Hp.
    + intros [= <-]. rewrite Nat.sub_diag. split_and!; [lia|done|intros; lia].
    + intros (Hik & Hocc & Hmin)%IH.
      replace (k - i) with (S (k - S i)) by lia. split_and!; [lia|done|].
      intros j Hj. destruct (decide (j = i)) as [->|Hne].
      * by rewrite Nat.sub_diag.
      * replace (j - i) with (S (j - S i)) by lia. apply Hmin. lia.
Qed.

Lemma find_at_None (sub t : str) (i : nat) :
  find_at sub t i = None →
  ∀ j, j ≤ length t → take (length sub) (drop j t) ≠ sub.
Proof.
  revert i; induction t as [|c t IH]; intros i; simpl.
  - case_bool_decide as Hp; [done|]. intros _ j Hj. by rewrite drop_nil.
  - case_bool_decide as Hp; [done|]. intros Hnone j Hj.
    destruct j as [|j]; [done|]. simpl. eapply IH; [done|lia].
Qed.

Lemma str_find_Some (s sub : str) (start0 k : nat) :
  str_find s sub start0 = Some k →
  start0 ≤ k ≤ length s ∧ occurs_at s sub k
  ∧ ∀ j, start0 ≤ j < k → ¬ occurs_at s sub j.
Proof.
  intros Hfind. pose proof (str_find_bounds _ _ _ _ Hfind) as Hb.
  unfold str_find in Hfind. case_bool_decide; [|done].
  apply find_at_Some in Hfind as (_ & Hocc & Hmin).
  unfold occurs_at. rewrite drop_drop in Hocc.
  replace (start0 + (k - start0)) with k in Hocc by lia.
  split_and!; [lia..|done|]. intros j Hj Hoccj. apply (Hmin j Hj).
  rewrite drop_drop. by replace (start0 + (j - start0)) with j by lia.
Qed.

Lemma str_find_None (s sub : str) (start0 : nat) :
  str_find s sub start0 = None →
  ∀ j, start0 ≤ j ≤ length s → ¬ occurs_at s sub j.
Proof.
  unfold str_find. case_bool_decide as Hle.
  - intros Hnone j Hj Hocc.
    apply (find_at_None _ _ _ Hnone (j - start0)).
    + rewrite length_drop. lia.
    + rewrite drop_drop. by replace (start0 + (j - start0)) with j by lia.
  - intros _ j Hj. lia.
Qed.

Lemma positions_None (s sub : str) (start0 : nat) :
  str_find s sub start0 = None → positions s sub start0 = [].
Proof.
  intros Hnone. unfold positions.
  apply elem_of_nil_inv. intros k (Hocc & Hk%elem_of_seq)%list_elem_of_filter.
  apply (str_find_None _ _ _ Hnone k); [lia|done].
Qed.

Lemma positions_Some (s sub : str) (start0 k : nat) :
  str_find s sub start0 = Some k →
  positions s sub start0 = k :: positions s sub (k + 1).
Proof.
  intros ((Hlo & Hhi) & Hocc & Hmin)%str_find_Some. unfold positions.
  replace (S (length s) - start0)
    with ((k - start0) + S (S (length s) - (k + 1))) by lia.
  rewrite seq_app. replace (start0 + (k - start0)) with k by lia.
  rewrite filter_app. simpl seq. rewrite filter_cons_True by done.
  replace (S k) with (k + 1) by lia.
  rewrite (elem_of_nil_inv (filter _ (seq start0 (k - start0)))); [done|].
  intros j (Hj & Hin%elem_of_seq)%list_elem_of_filter.
  apply (Hmin j); [lia|done].
Qed.

Definition entry_at (m mean : str) (k : nat) : MotifEntry :=
  {| motif := m; start := k + 1; meaning := mean |}.

(** The [while True] loop appends one entry per occurrence from [start0] on. *)
Lemma motif_loop_spec (dna m mean : str) (start0 : nat) (found : list MotifEntry) :
  motif_loop dna m mean start0 found
  = found ++ map (entry_at m mean) (positions dna m start0).
Proof.
  funelim (motif_loop dna m mean start0 found);
    match goal with
    | Hf : str_find _ _ _ = Some _ |- _ => rewrite (positions_Some _ _ _ _ Hf)
    | Hf : str_find _ _ _ = None |- _ => rewrite (positions_None _ _ _ Hf)
    end.
  - match goal with IH : motif_loop _ _ _ _ _ = _ ++ _ |- _ => rewrite IH end.
    by rewrite <-app_assoc.
  - by rewrite app_nil_r.
Qed.

(** The entries in the order in which the scan discovers them: motif by
    motif in table order, and by ascending index for one motif. *)
Definition discovered (dna : str) (motifs : list (str * str)) : list MotifEntry :=
  motifs ≫= λ p, map (entry_at p.1 p.2) (positions dna p.1 0).

Lemma find_motifs_foldl (dna : str) (motifs : list (str * str)) (found : list MotifEntry) :
  foldl (λ found '(motif, meaning), motif_loop dna motif meaning 0 found) found motifs
  = found ++ discovered dna motifs.
Proof.
  unfold discovered. revert found.
  induction motifs as [|[m mean] motifs IH]; intros found; simpl.
  - by rewrite app_nil_r.
  - rewrite IH, motif_loop_spec. by rewrite <-app_assoc.
Qed.

Lemma find_motifs_sorted_discovered (dna : str) (motifs : list (str * str)) :
  find_motifs dna motifs = sorted (discovered dna motifs) start.
Proof. unfold find_motifs. cbv zeta. by rewrite find_motifs_foldl. Qed.

Lemma positions_elem (s sub : str) (k : nat) :
  k ∈ positions s sub 0 ↔ k ≤ length s ∧ occurs_at s sub k.
Proof.
  unfold positions. rewrite list_elem_of_filter, elem_of_seq. split; intros; split_and?; lia || tauto.
Qed.

Lemma positions_NoDup (s sub : str) (start0 : nat) : NoDup (positions s sub start0).
Proof. apply NoDup_filter, NoDup_seq. Qed.

#[global] Instance entry_at_inj (m mean : str) : Inj (=) (=) (entry_at m mean).
Proof. intros k1 k2 [= Hk]. lia. Qed.

Lemma discovered_elem (dna : str) (motifs : list (str * str)) (e : MotifEntry) :
  e ∈ discovered dna motifs ↔
  ∃ m mean k, (m, mean) ∈ motifs ∧ k ≤ length dna ∧ occurs_at dna m k
              ∧ e = entry_at m mean k.
Proof.
  unfold discovered. rewrite list_elem_of_bind. split.
  - intros ([m mean] & (k & -> & Hk%positions_elem)%list_elem_of_fmap & Hp).
    exists m, mean, k. simpl in *. tauto.
  - intros (m & mean & k & Hp & Hk & Hocc & ->). exists (m, mean). split; [|done].
    apply list_elem_of_fmap. exists k. split; [done|]. by apply positions_elem.
Qed.

Lemma discovered_NoDup (dna : str) (motifs : list (str * str)) :
  NoDup motifs → NoDup (discovered dna motifs).
Proof.
  intros Hnd. unfold discovered. apply NoDup_bind; [| |done].
  - intros [m1 mean1] [m2 mean2] e _ _.
    intros (k1 & He1 & _)%list_elem_of_fmap (k2 & He2 & _)%list_elem_of_fmap.
    simpl in *. rewrite He1 in He2. unfold entry_at in He2. congruence.
  - intros [m mean] _. apply (NoDup_fmap_2 _), positions_NoDup.
Qed.

(** The scan of an arbitrary table whose entries are pairwise different and
    whose motifs are not empty. *)
Lemma find_motifs_spec (dna : str) (motifs : list (str * str)) :
  NoDup motifs → Forall (λ p, p.1 ≠ []) motifs →
  NoDup (find_motifs dna motifs)
  ∧ ∀ e, e ∈ find_motifs dna motifs ↔
      ∃ m mean k, (m, mean) ∈ motifs ∧ slice dna k (k + length m) = m
                  ∧ e = {| motif := m; start := k + 1; meaning := mean |}.
Proof.
  intros Hnd Hne. rewrite find_motifs_sorted_discovered. split.
  - rewrite sorted_perm. by apply discovered_NoDup.
  - intros e. rewrite sorted_perm, discovered_elem.
    split; intros (m & mean & k & Hp & H); exists m, mean, k; (split; [done|]).
    + destruct H as (_ & Hocc%occurs_at_slice & ->). done.
    + destruct H as (Hocc%occurs_at_slice & ->).
      rewrite Forall_forall in Hne. specialize (Hne _ Hp). simpl in Hne.
      pose proof (occurs_at_bound _ _ _ Hne Hocc). split_and!; [lia|done..].
Qed.

Lemma DNA_MEANINGS_NoDup : NoDup DNA_MEANINGS.
Proof. apply (bool_decide_unpack _). by vm_compute. Qed.

Lemma DNA_MEANINGS_keys_NoDup : NoDup (DNA_MEANINGS.*1).
Proof. apply (bool_decide_unpack _). by vm_compute. Qed.

Lemma DNA_MEANINGS_nonempty : Forall (λ p, p.1 ≠ []) DNA_MEANINGS.
Proof. apply (bool_decide_unpack _). by vm_compute. Qed.

(** C2. For every sequence (cleaned or not) the scan with the fixed motif
    table returns, without repetition, exactly the entries (motif [m],
    position [k + 1], meaning of [m]) for the motifs [m] of the table and the
    indices [k] with [S[k:k+len(m)] = m], overlapping occurrences included.
    The motif AA on AAAA gives the positions 1, 2, 3, and GAATTC on
    GAATTCGAATTC the positions 1 and 7. *)
Theorem find_motifs_all_occurrences (dna : str) :
  NoDup (find_motifs dna DNA_MEANINGS)
  ∧ (∀ e, e ∈ find_motifs dna DNA_MEANINGS ↔
       ∃ m mean k, (m, mean) ∈ DNA_MEANINGS ∧ slice dna k (k + length m) = m
                   ∧ e = {| motif := m; start := k + 1; meaning := mean |})
  ∧ find_motifs (py "AAAA") [(py "AA", py "x")]
    = [ {| motif := py "AA"; start := 1; meaning := py "x" |};
        {| motif := py "AA"; start := 2; meaning := py "x" |};
        {| motif := py "AA"; start := 3; meaning := py "x" |} ]
  ∧ find_motifs (py "GAATTCGAATTC") DNA_MEANINGS
    = [ {| motif := py "GAATTC"; start := 1;
           meaning := py "EcoRI restriction site (GAATTC)." |};
        {| motif := py "GAATTC"; start := 7;
           meaning := py "EcoRI restriction site (GAATTC)." |} ].
Proof.
  destruct (find_motifs_spec dna DNA_MEANINGS DNA_MEANINGS_NoDup DNA_MEANINGS_nonempty)
    as [Hnd Hiff].
  split_and!; [done|done|by vm_compute..].
Qed.

(** *** Order of the result *)

Lemma sublist_pair_split {A} (a b : A) (l : list A) :
  [a; b] `sublist_of` l → ∃ l1 l2 l3, l = l1 ++ a :: l2 ++ b :: l3.
Proof.
  intros (l1 & k & -> & (l2 & l3 & -> & _)%sublist_cons_l)%sublist_cons_l.
  by exists l1, l2, l3.
Qed.

Lemma StronglySorted_pair {A} (R : relation A) (l : list A) (a b : A) :
  StronglySorted R l → [a; b] `sublist_of` l → R a b.
Proof.
  intros Hs (l1 & l2 & l3 & ->)%sublist_pair_split.
  apply StronglySorted_app_1_r, StronglySorted_cons in Hs as [Hall _].
  rewrite Forall_forall in Hall. apply Hall. set_solver.
Qed.

Lemma StronglySorted_filter {A} (R : relation A) (P : A → Prop)
    `{!∀ x, Decision (P x)} (l : list A) :
  StronglySorted R l → StronglySorted R (filter P l).
Proof.
  induction 1 as [|x l _ IH Hx]; [constructor|].
  rewrite filter_cons. case_decide; [|done]. constructor; [done|].
  rewrite Forall_forall in *. intros y (_ & Hy)%list_elem_of_filter. by apply Hx.
Qed.

Lemma seq_StronglySorted (j n : nat) : StronglySorted lt (seq j n).
Proof.
  revert j; induction n as [|n IH]; intros j; simpl; constructor; [done|].
  apply Forall_forall. intros k Hk%elem_of_seq. lia.
Qed.

Lemma block_StronglySorted (dna m mean : str) :
  StronglySorted (λ e1 e2, start e1 < start e2)
    (map (entry_at m mean) (positions dna m 0)).
Proof.
  apply (StronglySorted_fmap _ lt); [intros k1 k2 Hk; simpl; lia|].
  apply StronglySorted_filter, seq_StronglySorted.
Qed.

Lemma discovered_lookup (dna : str) (motifs : list (str * str)) (e : MotifEntry) :
  e ∈ discovered dna motifs → ∃ b, motifs !! b = Some (motif e, meaning e).
Proof.
  intros (m & mean & k & Hp & _ & _ & ->)%discovered_elem.
  by apply list_elem_of_lookup in Hp.
Qed.

(** In discovery order, two entries of equal position belong to two motifs,
    and the motif of the first comes first in the table. *)
Lemma discovered_ties (dna : str) (motifs : list (str * str)) (e1 e2 : MotifEntry) :
  [e1; e2] `sublist_of` discovered dna motifs → start e1 = start e2 →
  ∃ a b, a < b ∧ motifs !! a = Some (motif e1, meaning e1)
         ∧ motifs !! b = Some (motif e2, meaning e2).
Proof.
  intros Hsub Heq. induction motifs as [|[m mean] motifs IH].
  { by apply sublist_nil_r in Hsub. }
  change (discovered dna ((m, mean) :: motifs))
    with (map (entry_at m mean) (positions dna m 0) ++ discovered dna motifs) in Hsub.
  apply sublist_app_r in Hsub as (k1 & k2 & Hk & Hk1 & Hk2).
  destruct k1 as [|x1 [|x2 k1]]; simpl in Hk.
  - subst k2. destruct (IH Hk2) as (a & b & Hab & Ha & Hb). exists (S a), (S b).
    split_and!; [lia|done..].
  - injection Hk as <- <-.
    assert (He2 : e2 ∈ discovered dna motifs).
    { eapply elem_of_sublist; [|exact Hk2]. left. }
    apply discovered_lookup in He2 as (b & Hb).
    assert (He1 : e1 ∈ map (entry_at m mean) (positions dna m 0)).
    { eapply elem_of_sublist; [|exact Hk1]. left. }
    apply list_elem_of_fmap in He1 as (k & -> & _).
    exists 0, (S b). split_and!; [lia|done..].
  - injection Hk as <- <- Hnil. symmetry in Hnil.
    apply app_eq_nil in Hnil as [-> ->].
    pose proof (StronglySorted_pair _ _ _ _ (block_StronglySorted dna m mean) Hk1).
    simpl in *. lia.
Qed.

(** C3. The list returned by the scan with the fixed table is sorted in
    ascending order of position, and the sort is stable: the entries of any
    one position stand in discovery order, so of two entries with the same
    position the one returned first belongs to the motif inserted first in
    the table. *)
Theorem find_motifs_sorted_stable (dna : str) :
  StronglySorted (λ e1 e2, start e1 ≤ start e2) (find_motifs dna DNA_MEANINGS)
  ∧ (∀ k, filter (λ e, start e = k) (find_motifs dna DNA_MEANINGS)
          = filter (λ e, start e = k) (discovered dna DNA_MEANINGS))
  ∧ (∀ e1 e2, [e1; e2] `sublist_of` find_motifs dna DNA_MEANINGS →
       start e1 = start e2 →
       ∃ a b, a < b ∧ DNA_MEANINGS !! a = Some (motif e1, meaning e1)
              ∧ DNA_MEANINGS !! b = Some (motif e2, meaning e2)).
Proof.
  rewrite find_motifs_sorted_discovered. split_and!.
  - apply sorted_sorted.
  - intros k. apply sorted_stable.
  - intros e1 e2 Hsub Heq. apply (discovered_ties dna); [|done].
    by apply (sorted_ties start).
Qed.

(** ** ORFFinder *)

(** The codon indices that a [while i + 3 <= n: ...; i += 3] loop entered at
    [i] visits, in order. *)
Definition codon_starts (n i : nat) : list nat :=
  (λ t, i + 3 * t) <$> seq 0 ((n - i) `div` 3).

Definition is_stop (dna : str) (j : nat) : Prop :=
  slice dna j (j + 3) ∈ STOP_CODONS.

#[global] Instance is_stop_dec (dna : str) (j : nat) : Decision (is_stop dna j).
Proof. unfold is_stop. apply _. Defined.

Definition mk_orf (f i j : nat) : ORF :=
  {| frame := f; orf_start := i + 1; orf_end := j + 3;
     length_nt := (j + 3) - i; length_aa := ((j + 3) - i) `div` 3 |}.

(** The entry, if any, that the candidate start [i] of frame [f] yields. *)
Definition orf_at (dna : str) (f i : nat) : list ORF :=
  match list_find (is_stop dna) (codon_starts (length dna) i) with
  | Some (_, j) => [mk_orf f i j]
  | None => []
  end.

Definition frame_orfs (dna : str) (f : nat) : list ORF :=
  codon_starts (length dna) f ≫= λ i,
    if bool_decide (slice dna i (i + 3) = py "ATG") then orf_at dna f i else [].

Lemma codon_starts_step (n i : nat) :
  i + 3 ≤ n → codon_starts n i = i :: codon_starts n (i + 3).
Proof.
  intros Hi. unfold codon_starts.
  replace (n - i) with ((n - (i + 3)) + 1 * 3) by lia.
  rewrite Nat.div_add by done. rewrite Nat.add_1_r. cbn [seq].
  rewrite fmap_cons, <-fmap_S_seq, <-list_fmap_compose. f_equal; [lia|].
  apply list_fmap_ext. intros _ t _. simpl. lia.
Qed.

Lemma codon_starts_end (n i : nat) : ¬ i + 3 ≤ n → codon_starts n i = [].
Proof.
  intros Hi. unfold codon_starts. rewrite Nat.div_small by lia. done.
Qed.

Lemma codon_starts_elem (n i j : nat) :
  j ∈ codon_starts n i ↔ ∃ t, j = i + 3 * t ∧ j + 3 ≤ n.
Proof.
  unfold codon_starts. rewrite list_elem_of_fmap.
  pose proof (Nat.div_mod_eq (n - i) 3) as Hdm.
  pose proof (Nat.mod_upper_bound (n - i) 3) as Hub.
  split; intros (t & Ht1 & Ht2); exists t; (split; [done|]).
  - apply elem_of_seq in Ht2. lia.
  - apply elem_of_seq. lia.
Qed.

Lemma codon_starts_lookup (n i t j : nat) :
  codon_starts n i !! t = Some j → j = i + 3 * t ∧ j + 3 ≤ n.
Proof.
  unfold codon_starts. rewrite list_lookup_fmap.
  intros (t' & [Ht' Hlt]%lookup_seq & ->)%fmap_Some. simpl in Ht'. subst t'.
  split; [done|].
  pose proof (Nat.div_mod_eq (n - i) 3). pose proof (Nat.mod_upper_bound (n - i) 3).
  lia.
Qed.

Lemma codon_starts_sorted (n i : nat) : StronglySorted lt (codon_starts n i).
Proof.
  apply (StronglySorted_fmap _ lt); [intros; lia|]. apply seq_StronglySorted.
Qed.

Lemma stop_loop_spec (dna : str) (n f i j : nat) (orfs : list ORF) :
  stop_loop dna n f i j orfs
  = orfs ++ match list_find (is_stop dna) (codon_starts n j) with
            | Some (_, j') => [mk_orf f i j']
            | None => []
            end.
Proof.
  funelim (stop_loop dna n f i j orfs);
    match goal with
    | H : ¬ _ + 3 ≤ _ |- _ => rewrite (codon_starts_end _ _ H)
    | H : _ + 3 ≤ _ |- _ => rewrite (codon_starts_step _ _ H)
    end; simpl list_find.
  - by rewrite app_nil_r.
  - apply bool_decide_eq_true in Heq. by rewrite decide_True.
  - apply bool_decide_eq_false in Heq. rewrite decide_False by done.
    match goal with IH : stop_loop _ _ _ _ _ _ = _ ++ _ |- _ => rewrite IH end.
    by destruct (list_find _ _) as [[? ?]|].
Qed.

Lemma frame_loop_spec (dna : str) (f i : nat) (orfs : list ORF) :
  frame_loop dna (length dna) f i orfs
  = orfs ++ (codon_starts (length dna) i ≫= λ i,
      if bool_decide (slice dna i (i + 3) = py "ATG") then orf_at dna f i else []).
Proof.
  remember (length dna) as n eqn:Hn.
  funelim (frame_loop dna n f i orfs);
    match goal with
    | H : ¬ _ + 3 ≤ _ |- _ => rewrite (codon_starts_end _ _ H)
    | H : _ + 3 ≤ _ |- _ => rewrite (codon_starts_step _ _ H)
    end; rewrite ?bind_cons.
  - by rewrite app_nil_r.
  - match goal with IH : _ → frame_loop _ _ _ _ _ = _ |- _ => rewrite IH by done end.
    rewrite Heq, stop_loop_spec. unfold orf_at. by rewrite <-app_assoc.
  - match goal with IH : _ → frame_loop _ _ _ _ _ = _ |- _ => rewrite IH by done end.
    by rewrite Heq.
Qed.

Lemma find_orfs_spec (dna : str) :
  find_orfs_all_frames dna = frame_orfs dna 0 ++ frame_orfs dna 1 ++ frame_orfs dna 2.
Proof.
  unfold find_orfs_all_frames, frame_orfs. cbv zeta. simpl foldl.
  rewrite !frame_loop_spec. simpl. by rewrite <-!app_assoc.
Qed.

(** [j] is the first stop codon of frame [f] at or after index [i]. *)
Definition first_stop (dna : str) (f i j : nat) : Prop :=
  i ≤ j ∧ j `mod` 3 = f ∧ j + 3 ≤ length dna ∧ is_stop dna j
  ∧ ∀ j', i ≤ j' → j' < j → j' `mod` 3 = f → ¬ is_stop dna j'.

Lemma codon_starts_lookup_iff (n i t j : nat) :
  codon_starts n i !! t = Some j ↔ j = i + 3 * t ∧ j + 3 ≤ n.
Proof.
  split; [apply codon_starts_lookup|]. intros [-> Hle].
  unfold codon_starts. rewrite list_lookup_fmap.
  assert (Hseq : seq 0 ((n - i) `div` 3) !! t = Some t).
  { apply lookup_seq. split; [done|].
    pose proof (Nat.div_mod_eq (n - i) 3). pose proof (Nat.mod_upper_bound (n - i) 3).
    lia. }
  by rewrite Hseq.
Qed.

Lemma same_frame (i j : nat) :
  i ≤ j → (j `mod` 3 = i `mod` 3 ↔ ∃ t, j = i + 3 * t).
Proof.
  intros Hij.
  pose proof (Nat.div_mod_eq i 3). pose proof (Nat.div_mod_eq j 3).
  pose proof (Nat.mod_upper_bound i 3). pose proof (Nat.mod_upper_bound j 3).
  split.
  - intros Hmod. exists (j `div` 3 - i `div` 3). lia.
  - intros [t ->]. replace (i + 3 * t) with (i + t * 3) by lia.
    apply Nat.Div0.mod_add.
Qed.

Lemma in_frame (n f i : nat) :
  f < 3 → (i ∈ codon_starts n f ↔ i `mod` 3 = f ∧ i + 3 ≤ n).
Proof.
  intros Hf. rewrite codon_starts_elem. split.
  - intros (t & -> & Hle). split; [|done].
    replace (f + 3 * t) with (f + t * 3) by lia.
    rewrite Nat.Div0.mod_add. by apply Nat.mod_small.
  - intros [Hmod Hle]. exists (i `div` 3). split; [|done].
    pose proof (Nat.div_mod_eq i 3). lia.
Qed.

Lemma orf_at_elem (dna : str) (f i : nat) (e : ORF) :
  i `mod` 3 = f →
  (e ∈ orf_at dna f i ↔ ∃ j, first_stop dna f i j ∧ e = mk_orf f i j).
Proof.
  intros Hif. unfold orf_at. split.
  - destruct (list_find _ _) as [[t j]|] eqn:Hfind; [|by intros ?%elem_of_nil].
    intros ->%list_elem_of_singleton. exists j. split; [|done].
    apply list_find_Some in Hfind as ([-> Hle]%codon_starts_lookup & Hstop & Hmin).
    unfold first_stop. split_and!; [lia| |done..|].
    + rewrite <-Hif. apply same_frame; [lia|by exists t].
    + intros j' Hij' Hj' Hmod Hstop'. rewrite <-Hif in Hmod.
      apply same_frame in Hmod as [t' ->]; [|done].
      apply (Hmin t' (i + 3 * t')); [|lia|done].
      apply codon_starts_lookup_iff. split; [done|lia].
  - intros (j & (Hij & Hmod & Hle & Hstop & Hmin) & ->).
    rewrite <-Hif in Hmod. apply same_frame in Hmod as [t ->]; [|done].
    assert (Hfind : list_find (is_stop dna) (codon_starts (length dna) i)
                    = Some (t, i + 3 * t)).
    { apply list_find_Some. split_and!; [by apply codon_starts_lookup_iff|done|].
      intros t' j' [-> _]%codon_starts_lookup Ht'. apply Hmin; [lia..|].
      rewrite <-Hif. apply same_frame; [lia|by exists t']. }
    rewrite Hfind. by left.
Qed.

Lemma frame_orfs_elem (dna : str) (f : nat) (e : ORF) :
  f < 3 →
  (e ∈ frame_orfs dna f ↔
   ∃ i j, i `mod` 3 = f ∧ i + 3 ≤ length dna ∧ slice dna i (i + 3) = py "ATG"
          ∧ first_stop dna f i j ∧ e = mk_orf f i j).
Proof.
  intros Hf. unfold frame_orfs. rewrite list_elem_of_bind. split.
  - intros (i & He & [Hmod Hle]%in_frame); [|done].
    case_bool_decide as Hatg; [|by apply elem_of_nil in He].
    apply orf_at_elem in He as (j & Hj & ->); [|done]. by exists i, j.
  - intros (i & j & Hmod & Hle & Hatg & Hj & ->). exists i. split.
    + rewrite bool_decide_eq_true_2 by done. apply orf_at_elem; [done|]. by exists j.
    + by apply in_frame.
Qed.

Lemma find_orfs_elem (dna : str) (e : ORF) :
  e ∈ find_orfs_all_frames dna ↔
  ∃ f i j, f < 3 ∧ i `mod` 3 = f ∧ i + 3 ≤ length dna
           ∧ slice dna i (i + 3) = py "ATG"
           ∧ first_stop dna f i j ∧ e = mk_orf f i j.
Proof.
  rewrite find_orfs_spec, !elem_of_app, !frame_orfs_elem by lia. split.
  - intros [H|[H|H]]; destruct H as (i & j & H);
      [exists 0, i, j|exists 1, i, j|exists 2, i, j]; (split; [lia|done]).
  - intros (f & i & j & Hf & H).
    assert (Hcases : f = 0 ∨ f = 1 ∨ f = 2) by lia.
    destruct Hcases as [-> | [-> | ->]]; [left|right; left|right; right];
      by exists i, j.
Qed.

(** *** Order of the entries *)

(** Lexicographic order on (frame, start). *)
Definition orf_lt (e1 e2 : ORF) : Prop :=
  frame e1 < frame e2 ∨ (frame e1 = frame e2 ∧ orf_start e1 < orf_start e2).

Lemma orf_at_cases (dna : str) (f i : nat) :
  orf_at dna f i = [] ∨ ∃ j, orf_at dna f i = [mk_orf f i j].
Proof.
  unfold orf_at. destruct (list_find _ _) as [[t j]|]; [right; by exists j|by left].
Qed.

Lemma frame_orfs_sorted (dna : str) (f : nat) :
  StronglySorted orf_lt (frame_orfs dna f).
Proof.
  unfold frame_orfs.
  assert (Hgen : ∀ l, StronglySorted lt l →
    StronglySorted orf_lt (l ≫= λ i,
      if bool_decide (slice dna i (i + 3) = py "ATG") then orf_at dna f i else [])
    ∧ Forall (λ e, frame e = f ∧ ∃ i, i ∈ l ∧ orf_start e = i + 1) (l ≫= λ i,
      if bool_decide (slice dna i (i + 3) = py "ATG") then orf_at dna f i else [])).
  { induction 1 as [|i l _ [IH1 IH2] Hi]; [split; constructor|].
    rewrite bind_cons.
    assert (Htl : Forall (λ e, frame e = f ∧ ∃ i0, i0 ∈ i :: l ∧ orf_start e = i0 + 1)
              (l ≫= λ i, if bool_decide (slice dna i (i + 3) = py "ATG")
                          then orf_at dna f i else [])).
    { eapply Forall_impl; [exact IH2|]. intros e (Hf & i0 & Hi0 & Hs).
      split; [done|]. exists i0. split; [by right|done]. }
    destruct (bool_decide _); [|by split].
    destruct (orf_at_cases dna f i) as [->|[j ->]]; [by split|]. simpl. split.
    - constructor; [done|]. apply Forall_forall. intros e He.
      rewrite Forall_forall in IH2. destruct (IH2 e He) as (Hf & i0 & Hi0 & Hs).
      rewrite Forall_forall in Hi. specialize (Hi _ Hi0).
      right. simpl. split; [done|]. lia.
    - constructor; [|done]. split; [done|]. exists i. split; [by left|done]. }
  apply Hgen, codon_starts_sorted.
Qed.

Lemma frame_orfs_frame (dna : str) (f : nat) (e : ORF) :
  e ∈ frame_orfs dna f → frame e = f.
Proof.
  unfold frame_orfs. intros (i & He & _)%list_elem_of_bind.
  destruct (bool_decide _); [|by apply elem_of_nil in He].
  destruct (orf_at_cases dna f i) as [Hnil|[j Hj]]; rewrite ?Hnil, ?Hj in He.
  - by apply elem_of_nil in He.
  - by apply list_elem_of_singleton in He as ->.
Qed.

Lemma find_orfs_sorted (dna : str) :
  StronglySorted orf_lt (find_orfs_all_frames dna).
Proof.
  rewrite find_orfs_spec. rewrite !StronglySorted_app.
  split_and!; try apply frame_orfs_sorted.
  - intros e1 e2 He1%frame_orfs_frame [He2%frame_orfs_frame|He2%frame_orfs_frame]%elem_of_app;
      left; lia.
  - intros e1 e2 He1%frame_orfs_frame He2%frame_orfs_frame. left; lia.
Qed.

Lemma orf_lt_irrefl (e : ORF) : ¬ orf_lt e e.
Proof. unfold orf_lt. lia. Qed.

Lemma StronglySorted_NoDup {A} (R : relation A) (l : list A) :
  (∀ x, ¬ R x x) → StronglySorted R l → NoDup l.
Proof.
  intros Hirr. induction 1 as [|x l _ IH Hx]; constructor; [|done].
  intros Hin. rewrite Forall_forall in Hx. by apply (Hirr x), Hx.
Qed.

Lemma ATG_not_stop : py "ATG" ∉ STOP_CODONS.
Proof. apply (bool_decide_unpack _). by vm_compute. Qed.

Lemma first_stop_after_start (dna : str) (f i j : nat) :
  slice dna i (i + 3) = py "ATG" → i `mod` 3 = f → first_stop dna f i j →
  i + 3 ≤ j ∧ ∃ t, j = i + 3 * t.
Proof.
  intros Hatg Hif (Hij & Hmod & Hle & Hstop & _).
  rewrite <-Hif in Hmod. apply same_frame in Hmod as [t ->]; [|done].
  split; [|by exists t]. destruct t; [|lia].
  exfalso. apply ATG_not_stop. rewrite <-Hatg. unfold is_stop in Hstop.
  by replace (i + 3 * 0) with i in Hstop by lia.
Qed.

Lemma first_stop_unique (dna : str) (f i j1 j2 : nat) :
  first_stop dna f i j1 → first_stop dna f i j2 → j1 = j2.
Proof.
  intros (Hi1 & Hm1 & _ & Hs1 & Hmin1) (Hi2 & Hm2 & _ & Hs2 & Hmin2).
  destruct (Nat.lt_trichotomy j1 j2) as [Hlt|[Heq|Hlt]]; [|done|].
  - destruct (Hmin2 j1); done.
  - destruct (Hmin1 j2); done.
Qed.

Lemma filter_NoDup_singleton {A} (P : A → Prop) `{!∀ x, Decision (P x)}
    (l : list A) (x : A) :
  NoDup l → (∀ e, e ∈ l ∧ P e ↔ e = x) → filter P l = [x].
Proof.
  intros Hnd Hx. apply Permutation_singleton_r. apply NoDup_Permutation.
  - by apply NoDup_filter.
  - apply NoDup_singleton.
  - intros e. rewrite list_elem_of_filter, list_elem_of_singleton. rewrite <-Hx. tauto.
Qed.

(** C1. For every sequence, the entries that the ORF scan emits are, without
    repetition, exactly the entries (frame [f], start [i + 1], end [j + 3],
    [length_nt = j + 3 - i], [length_aa = length_nt / 3]) for the frames
    [f < 3], the in-frame indices [i] whose codon is ATG, and the first
    in-frame stop codon [j] at or after [i]. So every in-frame ATG is a
    candidate start: it has exactly one entry when such a [j] exists and none
    otherwise. On ATGAAATAG the single entry is frame 0, start 1, end 9,
    9 nt, 3 aa. *)
Theorem find_orfs_entries (dna : str) :
  NoDup (find_orfs_all_frames dna)
  ∧ (∀ e, e ∈ find_orfs_all_frames dna ↔
       ∃ f i j, f < 3 ∧ i `mod` 3 = f ∧ i + 3 ≤ length dna
                ∧ slice dna i (i + 3) = py "ATG"
                ∧ first_stop dna f i j
                ∧ e = {| frame := f; orf_start := i + 1; orf_end := j + 3;
                         length_nt := (j + 3) - i;
                         length_aa := ((j + 3) - i) `div` 3 |})
  ∧ (∀ f i, f < 3 → i `mod` 3 = f → i + 3 ≤ length dna →
       slice dna i (i + 3) = py "ATG" →
       (∀ j, first_stop dna f i j →
          filter (λ e, frame e = f ∧ orf_start e = i + 1) (find_orfs_all_frames dna)
          = [ {| frame := f; orf_start := i + 1; orf_end := j + 3;
                 length_nt := (j + 3) - i;
                 length_aa := ((j + 3) - i) `div` 3 |} ])
       ∧ ((∀ j, ¬ first_stop dna f i j) →
          filter (λ e, frame e = f ∧ orf_start e = i + 1) (find_orfs_all_frames dna)
          = []))
  ∧ find_orfs_all_frames (py "ATGAAATAG")
    = [ {| frame := 0; orf_start := 1; orf_end := 9; length_nt := 9; length_aa := 3 |} ].
Proof.
  assert (Hnd : NoDup (find_orfs_all_frames dna)).
  { eapply StronglySorted_NoDup; [apply orf_lt_irrefl|apply find_orfs_sorted]. }
  split_and!; [done|apply find_orfs_elem| |by vm_compute].
  intros f i Hf Hmod Hle Hatg. split.
  - intros j Hj. apply filter_NoDup_singleton; [done|]. intros e. split.
    + intros [(f' & i' & j' & _ & Hmod' & _ & _ & Hj' & ->)%find_orfs_elem [Hf' Hi']].
      simpl in Hf', Hi'. assert (i' = i) as -> by lia.
      assert (f' = f) as -> by lia.
      by rewrite (first_stop_unique _ _ _ _ _ Hj' Hj).
    + intros ->. split; [|done]. apply find_orfs_elem. by exists f, i, j.
  - intros Hnone. apply elem_of_nil_inv.
    intros e [Hfi (f' & i' & j' & _ & Hmod' & _ & _ & Hj' & ->)%find_orfs_elem]%list_elem_of_filter.
    simpl in Hfi. destruct Hfi as [Hf' Hi']. assert (i' = i) as -> by lia.
    apply (Hnone j'). by assert (f = f') as -> by lia.
Qed.

(** C10. Every entry of the ORF scan of a sequence [S] satisfies
    [1 <= start < end <= |S|] and [length_nt = end - start + 1]; [length_nt]
    is a multiple of 3 and at least 6; [length_aa = length_nt / 3]; the codon
    at the 1-based positions [start .. start + 2] is ATG and the codon at
    [end - 2 .. end] is a stop codon; the frame is below 3 and is the residue
    of the 0-based start. The entries are listed in strictly ascending
    lexicographic order of (frame, start). *)
Theorem orf_entry_invariant (dna : str) :
  Forall (λ e,
      1 ≤ orf_start e ∧ orf_start e < orf_end e ∧ orf_end e ≤ length dna
      ∧ length_nt e = orf_end e - orf_start e + 1
      ∧ length_nt e `mod` 3 = 0 ∧ 6 ≤ length_nt e
      ∧ length_aa e = length_nt e `div` 3 ∧ 3 * length_aa e = length_nt e
      ∧ slice dna (orf_start e - 1) (orf_start e + 2) = py "ATG"
      ∧ slice dna (orf_end e - 3) (orf_end e) ∈ STOP_CODONS
      ∧ frame e < 3 ∧ (orf_start e - 1) `mod` 3 = frame e)
    (find_orfs_all_frames dna)
  ∧ StronglySorted orf_lt (find_orfs_all_frames dna).
Proof.
  split; [|apply find_orfs_sorted]. apply Forall_forall.
  intros e (f & i & j & Hf & Hmod & Hle & Hatg & Hj & ->)%find_orfs_elem.
  destruct (first_stop_after_start _ _ _ _ Hatg Hmod Hj) as [Hij [t ->]].
  destruct Hj as (_ & _ & Hjle & Hstop & _). unfold is_stop in Hstop.
  unfold mk_orf. cbn [frame orf_start orf_end length_nt length_aa].
  replace (i + 3 * t + 3 - i) with ((t + 1) * 3) by lia.
  rewrite Nat.Div0.mod_mul, Nat.div_mul by done.
  replace (i + 1 - 1) with i by lia. replace (i + 1 + 2) with (i + 3) by lia.
  replace (i + 3 * t + 3 - 3) with (i + 3 * t) by lia.
  split_and!; try done; lia.
Qed.

(** ** The summary *)




(** * Further properties *)

(** ** [find_motifs] with an arbitrary table *)

Lemma occurs_at_fits (s sub : str) (k : nat) :
  k ≤ length s ∧ occurs_at s sub k
  ↔ k + length sub ≤ length s ∧ slice s k (k + length sub) = sub.
Proof.
  rewrite <-occurs_at_slice. split; intros [Hk Hocc]; (split; [|done]); [|lia].
  unfold occurs_at in Hocc.
  assert (Hlen : length (take (length sub) (drop k s)) = length sub) by by rewrite Hocc.
  rewrite length_take, length_drop in Hlen. lia.
Qed.

Lemma find_motifs_elem (dna : str) (motifs : list (str * str)) (e : MotifEntry) :
  e ∈ find_motifs dna motifs ↔
  ∃ m mean k, (m, mean) ∈ motifs ∧ k + length m ≤ length dna
              ∧ slice dna k (k + length m) = m
              ∧ e = {| motif := m; start := k + 1; meaning := mean |}.
Proof.
  rewrite find_motifs_sorted_discovered, sorted_perm, discovered_elem.
  split; intros (m & mean & k & Hp & H); exists m, mean, k; (split; [done|]).
  - destruct H as (Hk & Hocc & ->).
    destruct (proj1 (occurs_at_fits dna m k)) as [? ?]; done.
  - destruct H as (Hk & Hocc & ->).
    destruct (proj2 (occurs_at_fits dna m k)) as [? ?]; done.
Qed.

(** X1. [find_motifs] with any table, empty motifs included: an entry is
    returned exactly for each table pair (motif [m], meaning) and each index
    [k] at which [m] fits into the sequence and occurs; every returned
    position lies between 1 and [len(dna) + 1]; the list is sorted by
    position; and when the motifs of the table are pairwise different (as the
    keys of a dict are) no entry is returned twice. *)
Theorem find_motifs_any_table (dna : str) (motifs : list (str * str)) :
  (∀ e, e ∈ find_motifs dna motifs ↔
     ∃ m mean k, (m, mean) ∈ motifs ∧ k + length m ≤ length dna
                 ∧ slice dna k (k + length m) = m
                 ∧ e = {| motif := m; start := k + 1; meaning := mean |})
  ∧ Forall (λ e, 1 ≤ start e ∧ start e + length (motif e) ≤ length dna + 1)
      (find_motifs dna motifs)
  ∧ StronglySorted (λ e1 e2, start e1 ≤ start e2) (find_motifs dna motifs)
  ∧ (NoDup (motifs.*1) → NoDup (find_motifs dna motifs)).
Proof.
  split_and!.
  - apply find_motifs_elem.
  - apply Forall_forall. intros e (m & mean & k & _ & Hk & _ & ->)%find_motifs_elem.
    simpl. lia.
  - rewrite find_motifs_sorted_discovered. apply sorted_sorted.
  - intros Hnd. rewrite find_motifs_sorted_discovered, sorted_perm.
    apply discovered_NoDup. by apply NoDup_fmap_1 in Hnd.
Qed.

(** X2. An empty motif occurs at every index from 0 to [len(dna)]: the scan
    of a table that holds only the empty motif ends and returns
    [len(dna) + 1] entries, at the positions 1 to [len(dna) + 1] in order. *)
Theorem find_motifs_empty_motif (dna mean : str) :
  find_motifs dna [([], mean)]
  = map (λ k, {| motif := []; start := k + 1; meaning := mean |})
        (seq 0 (S (length dna)))
  ∧ length (find_motifs dna [([], mean)]) = length dna + 1.
Proof.
  assert (Hpos : positions dna [] 0 = seq 0 (S (length dna))).
  { unfold positions. rewrite Nat.sub_0_r.
    induction (seq 0 (S (length dna))) as [|k l IH]; [done|].
    rewrite filter_cons_True by done. by rewrite IH. }
  assert (Heq : find_motifs dna [([], mean)]
                = map (entry_at [] mean) (seq 0 (S (length dna)))).
  { rewrite find_motifs_sorted_discovered. unfold discovered.
    rewrite bind_singleton. cbn [fst snd]. rewrite Hpos.
    apply (StronglySorted_unique_strong (λ e1 e2, start e1 ≤ start e2)).
    - intros e1 e2 He1 He2. rewrite sorted_perm in He1.
      apply list_elem_of_fmap in He1 as (k1 & -> & _).
      apply list_elem_of_fmap in He2 as (k2 & -> & _).
      simpl. intros ? ?. unfold entry_at. f_equal. lia.
    - apply sorted_sorted.
    - apply (StronglySorted_fmap _ lt); [intros; simpl; lia|].
      apply seq_StronglySorted.
    - apply sorted_perm. }
  split; [exact Heq|]. rewrite Heq, length_map, length_seq. lia.
Qed.

Lemma slice_app_l (s t : str) (i j : nat) :
  j ≤ length s → slice (s ++ t) i j = slice s i j.
Proof.
  intros Hj. unfold slice. destruct (decide (i ≤ j)) as [Hij|Hij].
  - rewrite drop_app_le by lia. apply take_app_le. rewrite length_drop. lia.
  - replace (j - i) with 0 by lia. done.
Qed.

(** X3. Appending symbols to the sequence changes nothing before them: the
    entries of [find_motifs] on [dna] are exactly the entries on [dna ++ ext]
    whose match ends within [dna]. *)
Theorem find_motifs_extension (dna ext : str) (motifs : list (str * str))
    (e : MotifEntry) :
  e ∈ find_motifs dna motifs
  ↔ e ∈ find_motifs (dna ++ ext) motifs
    ∧ start e + length (motif e) ≤ length dna + 1.
Proof.
  rewrite !find_motifs_elem. split.
  - intros (m & mean & k & Hp & Hk & Hs & ->). split; [|simpl; lia].
    exists m, mean, k. rewrite slice_app_l by lia. rewrite length_app.
    split_and!; [done|lia|done..].
  - intros [(m & mean & k & Hp & Hk & Hs & ->) Hfit]. simpl in Hfit.
    exists m, mean, k. rewrite slice_app_l in Hs by lia.
    split_and!; [done|lia|done..].
Qed.

(** X4. The order of the table matters only for the order of the result: two
    tables with the same pairs in a different order give the same entries,
    each the same number of times. *)
Theorem find_motifs_table_order (dna : str) (motifs1 motifs2 : list (str * str)) :
  motifs1 ≡ₚ motifs2 → find_motifs dna motifs1 ≡ₚ find_motifs dna motifs2.
Proof.
  intros Hperm. rewrite !find_motifs_sorted_discovered, !sorted_perm.
  unfold discovered. by rewrite Hperm.
Qed.

Lemma find_motifs_table_order_witness :
  [(py "AA", py "x"); (py "CAAT", py "y")] ≡ₚ [(py "CAAT", py "y"); (py "AA", py "x")]
  ∧ find_motifs (py "CAATAA") [(py "AA", py "x"); (py "CAAT", py "y")]
    ≡ₚ find_motifs (py "CAATAA") [(py "CAAT", py "y"); (py "AA", py "x")].
Proof.
  split; [apply Permutation_swap|].
  apply find_motifs_table_order, Permutation_swap.
Defined.

(** ** More on [find_orfs_all_frames] *)

(** X5. Between the start codon and the stop codon of a reported ORF no codon
    of its frame is a stop codon. Hence two ORFs of one frame are either
    nested, the later start lying inside the earlier ORF and both ending at
    the same stop codon, or disjoint, the earlier one ending before the later
    one starts. *)
Theorem orf_no_inner_stop_and_nesting (dna : str) :
  (∀ e k, e ∈ find_orfs_all_frames dna →
     orf_start e - 1 ≤ k → k + 3 < orf_end e → k `mod` 3 = frame e →
     slice dna k (k + 3) ∉ STOP_CODONS)
  ∧ (∀ e1 e2, e1 ∈ find_orfs_all_frames dna → e2 ∈ find_orfs_all_frames dna →
       frame e1 = frame e2 → orf_start e1 < orf_start e2 →
       (orf_start e2 < orf_end e1 ∧ orf_end e2 = orf_end e1)
       ∨ orf_end e1 < orf_start e2).
Proof.
  split.
  - intros e k (f & i & j & _ & _ & _ & _ & Hj & ->)%find_orfs_elem.
    simpl. intros Hik Hkj Hmod.
    destruct Hj as (_ & _ & _ & _ & Hmin). apply Hmin; [lia..|done].
  - intros e1 e2 (f1 & i1 & j1 & _ & Hm1 & _ & Hatg1 & Hj1 & ->)%find_orfs_elem
      (f2 & i2 & j2 & _ & Hm2 & _ & Hatg2 & Hj2 & ->)%find_orfs_elem.
    simpl. intros <- Hlt.
    destruct (first_stop_after_start _ _ _ _ Hatg2 Hm2 Hj2) as [Hij2 _].
    destruct Hj1 as (Hij1 & Hmj1 & Hle1 & Hstop1 & Hmin1).
    destruct Hj2 as (_ & Hmj2 & Hle2 & Hstop2 & Hmin2).
    destruct (decide (i2 ≤ j1)) as [Hin|Hout].
    + left. split; [lia|].
      destruct (Nat.lt_trichotomy j1 j2) as [Hlt12|[->|Hlt21]]; [|done|].
      * destruct (Hmin2 j1); done || lia.
      * destruct (Hmin1 j2); done || lia.
    + right.
      assert (Hne : i2 ≠ j1 + 1 ∧ i2 ≠ j1 + 2).
      { rewrite <-Hmj1 in Hm2.
        pose proof (Nat.div_mod_eq i2 3). pose proof (Nat.div_mod_eq j1 3).
        pose proof (Nat.mod_upper_bound j1 3). lia. }
      lia.
Qed.

Lemma first_stop_app (dna ext : str) (f i j : nat) :
  j + 3 ≤ length dna →
  (first_stop dna f i j ↔ first_stop (dna ++ ext) f i j).
Proof.
  intros Hj. unfold first_stop, is_stop. rewrite length_app.
  rewrite (slice_app_l dna ext j) by lia.
  split; intros (Hij & Hmod & Hle & Hstop & Hmin); split_and!; try done; try lia.
  - intros j' H1 H2 H3. rewrite slice_app_l by lia. by apply Hmin.
  - intros j' H1 H2 H3. specialize (Hmin j' H1 H2 H3).
    by rewrite slice_app_l in Hmin by lia.
Qed.

(** X6. Appending symbols to the sequence keeps every ORF already reported
    and adds only ORFs that end in the appended part: the entries of the scan
    of [dna] are exactly the entries of the scan of [dna ++ ext] whose end
    lies within [dna]. *)
Theorem find_orfs_extension (dna ext : str) (e : ORF) :
  e ∈ find_orfs_all_frames dna
  ↔ e ∈ find_orfs_all_frames (dna ++ ext) ∧ orf_end e ≤ length dna.
Proof.
  rewrite !find_orfs_elem. split.
  - intros (f & i & j & Hf & Hmod & Hle & Hatg & Hj & ->).
    assert (Hjle : j + 3 ≤ length dna) by (destruct Hj as (_ & _ & ? & _); done).
    split; [|done]. exists f, i, j. rewrite length_app, slice_app_l by lia.
    split_and!; [done|done|lia|done| |done]. by apply first_stop_app.
  - intros [(f & i & j & Hf & Hmod & Hle & Hatg & Hj & ->) Hend]. simpl in Hend.
    assert (Hij : i ≤ j) by (destruct Hj as (? & _); done).
    exists f, i, j. rewrite slice_app_l in Hatg by lia.
    split_and!; [done|done|lia|done| |done]. by apply (first_stop_app dna ext).
Qed.

Lemma orf_lt_start (dna : str) (e1 e2 : ORF) :
  e1 ∈ find_orfs_all_frames dna → e2 ∈ find_orfs_all_frames dna →
  orf_start e1 = orf_start e2 → e1 = e2.
Proof.
  intros (f1 & i1 & j1 & _ & Hm1 & _ & _ & Hj1 & ->)%find_orfs_elem
    (f2 & i2 & j2 & _ & Hm2 & _ & _ & Hj2 & ->)%find_orfs_elem.
  simpl. intros Hi. assert (i1 = i2) as -> by lia.
  assert (f1 = f2) as -> by lia.
  by rewrite (first_stop_unique _ _ _ _ _ Hj1 Hj2).
Qed.

(** X7. Every ORF begins at an occurrence of ATG, no two ORFs begin at the
    same position, and so the ORF scan never returns more entries than the
    motif scan finds occurrences of the motif ATG. *)
Theorem orfs_start_at_ATG (dna mean : str) :
  (∀ e, e ∈ find_orfs_all_frames dna →
     {| motif := py "ATG"; start := orf_start e; meaning := mean |}
     ∈ find_motifs dna [(py "ATG", mean)])
  ∧ NoDup (map orf_start (find_orfs_all_frames dna))
  ∧ length (find_orfs_all_frames dna) ≤ length (find_motifs dna [(py "ATG", mean)]).
Proof.
  assert (Hstart : ∀ e, e ∈ find_orfs_all_frames dna →
            {| motif := py "ATG"; start := orf_start e; meaning := mean |}
            ∈ find_motifs dna [(py "ATG", mean)]).
  { intros e (f & i & j & _ & _ & Hle & Hatg & _ & ->)%find_orfs_elem.
    apply find_motifs_elem. exists (py "ATG"), mean, i.
    split_and!; [by left|done|done|done]. }
  assert (Hnd : NoDup (map orf_start (find_orfs_all_frames dna))).
  { apply NoDup_fmap_2_strong.
    - intros e1 e2 He1 He2. by apply (orf_lt_start dna).
    - eapply StronglySorted_NoDup; [apply orf_lt_irrefl|apply find_orfs_sorted]. }
  split_and!; [done..|].
  rewrite <-(length_map orf_start).
  rewrite <-(length_map start (find_motifs dna _)).
  apply submseteq_length, NoDup_submseteq; [done|].
  intros k (e & -> & He)%list_elem_of_fmap.
  apply list_elem_of_fmap.
  exists {| motif := py "ATG"; start := orf_start e; meaning := mean |}.
  split; [done|by apply Hstart].
Qed.

(** *** Reading frames *)

(** An entry of the scan of [dna[f:]], moved back by [f] symbols and given
    the frame [f]. *)
Definition shift_orf (f : nat) (e : ORF) : ORF :=
  {| frame := f; orf_start := orf_start e + f; orf_end := orf_end e + f;
     length_nt := length_nt e; length_aa := length_aa e |}.

Lemma slice_drop (s : str) (f i j : nat) :
  slice (drop f s) i j = slice s (i + f) (j + f).
Proof.
  unfold slice. rewrite drop_drop. f_equal; [lia|]. f_equal. lia.
Qed.

Lemma codon_starts_shift (n f i : nat) :
  codon_starts n (i + f) = (λ k, k + f) <$> codon_starts (n - f) i.
Proof.
  unfold codon_starts. rewrite <-list_fmap_compose.
  replace (n - f - i) with (n - (i + f)) by lia.
  apply list_fmap_ext. intros _ t _. simpl. lia.
Qed.

Lemma orf_at_shift (dna : str) (f i : nat) :
  orf_at dna f (i + f) = map (shift_orf f) (orf_at (drop f dna) 0 i).
Proof.
  unfold orf_at. rewrite length_drop, codon_starts_shift, list_find_fmap.
  rewrite (list_find_ext _ (is_stop (drop f dna))).
  - destruct (list_find _ _) as [[t j]|]; simpl; [|done].
    unfold mk_orf, shift_orf. cbn [frame orf_start orf_end length_nt length_aa].
    replace (j + f + 3 - (i + f)) with (j + 3 - i) by lia.
    do 2 f_equal; lia.
  - intros j. unfold is_stop. simpl. rewrite slice_drop.
    by replace (j + 3 + f) with (j + f + 3) by lia.
Qed.

Lemma frame_orfs_shift (dna : str) (f : nat) :
  frame_orfs dna f = map (shift_orf f) (frame_orfs (drop f dna) 0).
Proof.
  unfold frame_orfs. rewrite length_drop.
  change (codon_starts (length dna) f) with (codon_starts (length dna) (0 + f)).
  rewrite codon_starts_shift, list_fmap_bind.
  induction (codon_starts (length dna - f) 0) as [|i l IH]; [done|].
  rewrite !bind_cons, map_app, <-IH. f_equal. simpl.
  rewrite slice_drop. replace (i + 3 + f) with (i + f + 3) by lia.
  destruct (bool_decide _); [|done]. apply orf_at_shift.
Qed.

Lemma filter_all {A} (P : A → Prop) `{!∀ x, Decision (P x)} (l : list A) :
  Forall P l → filter P l = l.
Proof.
  induction 1 as [|x l Hx _ IH]; [done|]. by rewrite filter_cons_True, IH.
Qed.

Lemma filter_none {A} (P : A → Prop) `{!∀ x, Decision (P x)} (l : list A) :
  Forall (λ x, ¬ P x) l → filter P l = [].
Proof.
  induction 1 as [|x l Hx _ IH]; [done|]. by rewrite filter_cons_False.
Qed.

Lemma find_orfs_frame (dna : str) (f : nat) :
  f < 3 → filter (λ e, frame e = f) (find_orfs_all_frames dna) = frame_orfs dna f.
Proof.
  intros Hf. rewrite find_orfs_spec, !filter_app.
  assert (Hblock : ∀ f', filter (λ e, frame e = f) (frame_orfs dna f')
                         = if decide (f' = f) then frame_orfs dna f' else []).
  { intros f'. case_decide as Hff.
    - apply filter_all, Forall_forall. intros e He%frame_orfs_frame. lia.
    - apply filter_none, Forall_forall. intros e He%frame_orfs_frame. lia. }
  rewrite !Hblock.
  assert (Hcases : f = 0 ∨ f = 1 ∨ f = 2) by lia.
  destruct Hcases as [-> | [-> | ->]]; simpl; by rewrite ?app_nil_r.
Qed.

(** X8. Reading frame [f] of a sequence is reading frame 0 of the sequence
    without its first [f] symbols: the entries of frame [f] are the entries
    of frame 0 of the scan of [dna[f:]], in the same order, with the frame set
    to [f] and the start and end moved by [f]. *)
Theorem find_orfs_frame_shift (dna : str) (f : nat) :
  f < 3 →
  filter (λ e, frame e = f) (find_orfs_all_frames dna)
  = map (λ e, {| frame := f; orf_start := orf_start e + f;
                 orf_end := orf_end e + f;
                 length_nt := length_nt e; length_aa := length_aa e |})
        (filter (λ e, frame e = 0) (find_orfs_all_frames (drop f dna))).
Proof.
  intros Hf. rewrite !find_orfs_frame by lia. apply frame_orfs_shift.
Qed.

Lemma find_orfs_frame_shift_witness :
  1 < 3
  ∧ filter (λ e, frame e = 1) (find_orfs_all_frames (py "CATGAAATAGG"))
    = map (λ e, {| frame := 1; orf_start := orf_start e + 1;
                   orf_end := orf_end e + 1;
                   length_nt := length_nt e; length_aa := length_aa e |})
          (filter (λ e, frame e = 0) (find_orfs_all_frames (drop 1 (py "CATGAAATAGG")))).
Proof. split; [lia|]. apply (find_orfs_frame_shift (py "CATGAAATAGG") 1). lia. Defined.

(** ** [summarize_orfs] on an arbitrary list *)


(** ** [base_counts_and_stats] on an arbitrary string *)

(** [sum(d.values())]. *)
Definition dict_values_sum (d : gmap N nat) : nat :=
  map_fold (λ _ n acc, n + acc) 0 d.

Lemma Counter_fold_lookup (s : str) (m : gmap N nat) (c : N) :
  foldl (λ m c, <[c := S (default 0 (m !! c))]> m) m s !! c
  = match m !! c with
    | Some n => Some (n + occurrences c s)
    | None => if decide (occurrences c s = 0) then None else Some (occurrences c s)
    end.
Proof.
  unfold occurrences. revert m; induction s as [|x s IH]; intros m; simpl.
  - destruct (m !! c); [f_equal; lia|done].
  - rewrite IH, filter_cons. destruct (decide (x = c)) as [->|Hne].
    + rewrite lookup_insert_eq. destruct (m !! c); simpl; f_equal; lia.
    + rewrite lookup_insert_ne by done. done.
Qed.

Lemma dict_values_sum_insert (m : gmap N nat) (c : N) (v : nat) :
  dict_values_sum (<[c := v]> m) + default 0 (m !! c) = v + dict_values_sum m.
Proof.
  unfold dict_values_sum.
  assert (Hcomm : ∀ (m' : gmap N nat) (j1 j2 : N) (z1 z2 y : nat),
            j1 ≠ j2 → m' !! j1 = Some z1 → m' !! j2 = Some z2 →
            z1 + (z2 + y) = z2 + (z1 + y)) by (intros; lia).
  rewrite <-insert_delete_eq.
  rewrite map_fold_insert_L; [|by apply Hcomm|by apply lookup_delete_eq].
  destruct (m !! c) as [n|] eqn:Hc; simpl.
  - rewrite (map_fold_delete_L _ _ c n m); [lia|by apply Hcomm|done].
  - rewrite delete_id by done. lia.
Qed.

Lemma Counter_snoc (s : str) (c : N) :
  Counter (s ++ [c]) = <[c := S (default 0 (Counter s !! c))]> (Counter s).
Proof. unfold Counter. by rewrite foldl_snoc. Qed.

Lemma dict_values_sum_Counter (s : str) : dict_values_sum (Counter s) = length s.
Proof.
  induction s as [|c s IH] using rev_ind; [done|].
  rewrite Counter_snoc, length_app. simpl.
  pose proof (dict_values_sum_insert (Counter s) c (S (default 0 (Counter s !! c)))).
  lia.
Qed.

(** X10. For any string, cleaned or not: [counts] has an entry exactly for
    the symbols that occur in the string, each with its number of
    occurrences (a symbol that does not occur has no entry rather than the
    entry 0); the values of [counts] add up to the length of the string, and
    [total] is that length. *)
Theorem counts_of_any_string (dna : str) :
  let st := base_counts_and_stats dna in
  (∀ c, counts st !! c
        = if decide (occurrences c dna = 0) then None
          else Some (occurrences c dna))
  ∧ (∀ c, is_Some (counts st !! c) ↔ c ∈ dna)
  ∧ dict_values_sum (counts st) = length dna
  ∧ total st = length dna.
Proof.
  assert (Hlook : ∀ c, Counter dna !! c
                       = if decide (occurrences c dna = 0) then None
                         else Some (occurrences c dna)).
  { intros c. unfold Counter. by rewrite Counter_fold_lookup, lookup_empty. }
  split_and!; [exact Hlook| |apply dict_values_sum_Counter|done].
  intros c. simpl counts. rewrite Hlook. unfold occurrences. case_decide as Hocc.
  - split; [by intros [? ?]|]. intros Hin. exfalso.
    apply length_zero_iff_nil in Hocc.
    by apply (filter_nil_not_elem_of (λ x, x = c) dna c).
  - split; [|by eauto]. intros _.
    destruct (filter (λ x, x = c) dna) as [|x l] eqn:Hf; [done|].
    assert (Hx : x ∈ filter (λ x, x = c) dna) by (rewrite Hf; left).
    apply list_elem_of_filter in Hx as [-> Hx]. done.
Qed.

Lemma occurrences_bases_filter (s : str) :
  occurrences 71 s + occurrences 67 s + (occurrences 65 s + occurrences 84 s)
  = length (filter (λ c, c ∈ py "ATCG") s).
Proof.
  unfold occurrences. induction s as [|c s IH]; [done|].
  rewrite !filter_cons. rewrite py_bases in *.
  repeat case_decide; simpl; subst;
    repeat match goal with
    | H : _ ∈ _ |- _ => rewrite ?elem_of_cons, ?elem_of_nil in H
    | H : ¬ (_ ∈ _) |- _ => rewrite ?elem_of_cons, ?elem_of_nil in H
    end; try lia; try (exfalso; naive_solver).
Qed.

Lemma length_filter_all {A} (P : A → Prop) `{!∀ x, Decision (P x)} (l : list A) :
  length (filter P l) = length l ↔ Forall P l.
Proof.
  split; [|intros Hall; by rewrite filter_all].
  induction l as [|x l IH]; [constructor|].
  rewrite filter_cons. pose proof (length_filter P l). case_decide; simpl.
  - intros Hlen. constructor; [done|]. apply IH. lia.
  - lia.
Qed.

(** X11. For any string, the symbols counted as G or C and as A or T are
    never more than the length, and they make up the whole length exactly
    when the string holds no other symbol. So for a string that was not
    cleaned (lower-case letters, N, blanks) the two percentages cover only a
    part of it. *)
Theorem gc_at_counts_of_any_string (dna : str) :
  let st := base_counts_and_stats dna in
  let gc := dict_get (counts st) 71 0 + dict_get (counts st) 67 0 in
  let at_ := dict_get (counts st) 65 0 + dict_get (counts st) 84 0 in
  gc + at_ = length (filter (λ c, c ∈ py "ATCG") dna)
  ∧ gc + at_ ≤ total st
  ∧ (gc + at_ = total st ↔ Forall (λ c, c ∈ py "ATCG") dna).
Proof.
  intros st gc at_.
  assert (Hsum : gc + at_ = length (filter (λ c, c ∈ py "ATCG") dna)).
  { unfold gc, at_, st. simpl counts. rewrite !dict_get_Counter.
    apply occurrences_bases_filter. }
  change (total st) with (length dna). rewrite Hsum.
  split_and!; [done|apply length_filter|apply length_filter_all].
Qed.

Lemma occurrences_none (c : N) (l s : str) :
  Forall (λ x, x ∈ l) s → c ∉ l → occurrences c s = 0.
Proof.
  intros Hall Hc. unfold occurrences. rewrite filter_none; [done|].
  rewrite Forall_forall in *. intros x Hx ->. by apply Hc, Hall.
Qed.

Lemma stats_one_kind (dna : str) (a b : N) :
  dna ≠ [] → Forall (λ c, c ∈ [a; b]) dna → a ≠ b →
  occurrences a dna + occurrences b dna = length dna
  ∧ 0 < length dna.
Proof.
  intros Hne Hall Hab. split; [|destruct dna; [done|simpl; lia]].
  clear Hne. unfold occurrences. induction Hall as [|c s Hc _ IH]; [done|].
  rewrite !filter_cons. rewrite !elem_of_cons, elem_of_nil in Hc.
  destruct Hc as [-> | [-> | []]]; repeat case_decide; try done; simpl; lia.
Qed.

(** X12. The percentages of a sequence of one kind are exact. For a
    sequence that is not empty (and shorter than [2^53]): when it holds only
    G and C, [gc_percent] is exactly 100.0, [at_percent] exactly 0.0 and
    [at_gc_ratio] exactly 0.0; when it holds only A and T, [gc_percent] is
    exactly 0.0, [at_percent] exactly 100.0 and [at_gc_ratio] the infinity
    sentinel. *)
Theorem percentages_of_one_kind (dna : str) :
  dna ≠ [] → (Z.of_nat (length dna) < 2 ^ 53)%Z →
  (Forall (λ c, c ∈ py "GC") dna →
     gc_percent (base_counts_and_stats dna) = 100%float
     ∧ at_percent (base_counts_and_stats dna) = 0%float
     ∧ at_gc_ratio (base_counts_and_stats dna) = 0%float)
  ∧ (Forall (λ c, c ∈ py "AT") dna →
     gc_percent (base_counts_and_stats dna) = 0%float
     ∧ at_percent (base_counts_and_stats dna) = 100%float
     ∧ at_gc_ratio (base_counts_and_stats dna) = float_inf).
Proof.
  intros Hne Hlen.
  assert (Hstats : ∀ gc at_,
    gc = dict_get (Counter dna) 71 0 + dict_get (Counter dna) 67 0 →
    at_ = dict_get (Counter dna) 65 0 + dict_get (Counter dna) 84 0 →
    gc_percent (base_counts_and_stats dna)
      = (int_truediv gc (length dna) * 100)%float
    ∧ at_percent (base_counts_and_stats dna)
      = (int_truediv at_ (length dna) * 100)%float
    ∧ at_gc_ratio (base_counts_and_stats dna)
      = if bool_decide (0 < gc) then int_truediv at_ gc else float_inf).
  { intros gc at_ -> ->. unfold base_counts_and_stats. cbv zeta.
    rewrite bool_decide_eq_false_2 by done. done. }
  split; intros Hall.
  - destruct (stats_one_kind dna 71 67 Hne Hall ltac:(done)) as [Hgc Hpos].
    destruct (Hstats _ _ eq_refl eq_refl) as (-> & -> & ->).
    rewrite !dict_get_Counter, Hgc.
    rewrite (occurrences_none 65 _ _ Hall), (occurrences_none 84 _ _ Hall);
      [|apply (bool_decide_unpack _); by vm_compute..].
    rewrite bool_decide_eq_true_2 by done. change (0 + 0) with 0.
    rewrite (int_truediv_self _ Hpos Hlen), (int_truediv_zero _ Hpos Hlen). done.
  - destruct (stats_one_kind dna 65 84 Hne Hall ltac:(done)) as [Hat Hpos].
    destruct (Hstats _ _ eq_refl eq_refl) as (-> & -> & ->).
    rewrite !dict_get_Counter, Hat.
    rewrite (occurrences_none 71 _ _ Hall), (occurrences_none 67 _ _ Hall);
      [|apply (bool_decide_unpack _); by vm_compute..].
    rewrite bool_decide_eq_false_2 by lia. change (0 + 0) with 0.
    rewrite (int_truediv_self _ Hpos Hlen), (int_truediv_zero _ Hpos Hlen). done.
Qed.

Lemma percentages_of_one_kind_witness :
  py "GCG" ≠ [] ∧ (Z.of_nat (length (py "GCG")) < 2 ^ 53)%Z
  ∧ Forall (λ c, c ∈ py "GC") (py "GCG")
  ∧ gc_percent (base_counts_and_stats (py "GCG")) = 100%float
  ∧ at_percent (base_counts_and_stats (py "GCG")) = 0%float
  ∧ at_gc_ratio (base_counts_and_stats (py "GCG")) = 0%float.
Proof.
  assert (Hne : py "GCG" ≠ []) by done.
  assert (Hlen : (Z.of_nat (length (py "GCG")) < 2 ^ 53)%Z) by done.
  assert (Hall : Forall (λ c, c ∈ py "GC") (py "GCG")).
  { repeat constructor; apply (bool_decide_unpack _); by vm_compute. }
  split_and!; [done..| | |];
    apply (percentages_of_one_kind (py "GCG") Hne Hlen); exact Hall.
Defined.

(** ** [dna_to_midi_file] *)

(** The two messages of one note. *)
Definition note_events (base : N) : list Message :=
  match BASE_NOTE_MAP !! base with
  | Some note => [note_on note 100 0; note_off note 100 200]
  | None => []
  end.

(** The sum of the delta times of a track, in ticks. *)
Definition track_ticks (track : list Message) : Z :=
  foldr (λ m acc, (msg_time m + acc)%Z) 0%Z track.

Lemma BASE_NOTE_MAP_lookup (c : N) :
  BASE_NOTE_MAP !! c
  = if decide (c = 65%N) then Some 60%Z
    else if decide (c = 84%N) then Some 62%Z
    else if decide (c = 67%N) then Some 64%Z
    else if decide (c = 71%N) then Some 67%Z
    else None.
Proof.
  unfold BASE_NOTE_MAP. rewrite !lookup_insert, lookup_empty.
  repeat case_decide; congruence.
Qed.

Lemma midi_track_foldl (dna : str) (track : list Message) :
  foldl (λ track base,
           match BASE_NOTE_MAP !! base with
           | Some note =>
               if bool_decide (note ≠ 0%Z) then
                 (track ++ [note_on note 100 0]) ++ [note_off note 100 200]
               else track
           | None => track
           end)
        track dna
  = track ++ (dna ≫= note_events).
Proof.
  revert track. induction dna as [|c dna IH]; intros track.
  - symmetry. apply app_nil_r.
  - rewrite bind_cons. cbn [foldl]. rewrite IH.
    unfold note_events at 2. rewrite BASE_NOTE_MAP_lookup.
    repeat case_decide; simpl; by rewrite <-?app_assoc.
Qed.

Lemma midi_track_spec (t : Z → Z) (dna : str) (bpm program : Z) :
  midi_track t dna bpm program
  = [program_change program 0; set_tempo (t bpm)] ++ (dna ≫= note_events).
Proof. unfold midi_track. cbv zeta. by rewrite midi_track_foldl. Qed.

Lemma note_events_other (c : N) : c ∉ py "ATCG" → note_events c = [].
Proof.
  rewrite py_bases, !elem_of_cons, elem_of_nil. intros Hc.
  unfold note_events. rewrite BASE_NOTE_MAP_lookup.
  repeat case_decide; try done; exfalso; naive_solver.
Qed.

Lemma note_events_base (c : N) :
  c ∈ py "ATCG" →
  ∃ note, BASE_NOTE_MAP !! c = Some note
          ∧ note_events c = [note_on note 100 0; note_off note 100 200].
Proof.
  intros Hc%in_BASE_NOTE_MAP. destruct Hc as [note Hnote].
  exists note. unfold note_events. by rewrite Hnote.
Qed.

Lemma note_events_filter (dna : str) :
  dna ≫= note_events = filter (λ c, c ∈ py "ATCG") dna ≫= note_events.
Proof.
  induction dna as [|c dna IH]; [done|].
  rewrite filter_cons, bind_cons, IH. case_decide as Hc.
  - by rewrite bind_cons.
  - by rewrite note_events_other.
Qed.

Lemma note_events_length (dna : str) :
  Forall (λ c, c ∈ py "ATCG") dna → length (dna ≫= note_events) = 2 * length dna.
Proof.
  induction 1 as [|c dna Hc _ IH]; [done|].
  destruct (note_events_base c Hc) as (note & _ & Hev).
  rewrite bind_cons, length_app, IH, Hev. simpl. lia.
Qed.

(** X13. Symbols other than the upper-case letters A, T, C, G (lower-case
    letters included) are skipped without notice: the file is the file of the
    sequence without them, and the track holds the program change, the tempo
    and two messages for each of the remaining symbols. *)
Theorem dna_to_midi_file_skips_other_symbols
    (bpm2tempo : Z → Z) (save : list (list Message) → list Byte.byte)
    (dna : str) (bpm program : Z) :
  dna_to_midi_file bpm2tempo save dna bpm program
  = dna_to_midi_file bpm2tempo save (filter (λ c, c ∈ py "ATCG") dna) bpm program
  ∧ midi_track bpm2tempo dna bpm program
    = midi_track bpm2tempo (filter (λ c, c ∈ py "ATCG") dna) bpm program
  ∧ length (midi_track bpm2tempo dna bpm program)
    = 2 + 2 * length (filter (λ c, c ∈ py "ATCG") dna).
Proof.
  assert (Htrack : midi_track bpm2tempo dna bpm program
                   = midi_track bpm2tempo (filter (λ c, c ∈ py "ATCG") dna) bpm program).
  { rewrite !midi_track_spec. f_equal. apply note_events_filter. }
  split_and!; [|done|].
  - unfold dna_to_midi_file. by rewrite Htrack.
  - rewrite Htrack, midi_track_spec, length_app, note_events_length.
    + done.
    + apply Forall_forall. intros c Hc%list_elem_of_filter. tauto.
Qed.

Lemma note_events_lookup (dna : str) (i : nat) (c : N) (note : Z) :
  Forall (λ c, c ∈ py "ATCG") dna → dna !! i = Some c →
  BASE_NOTE_MAP !! c = Some note →
  (dna ≫= note_events) !! (2 * i) = Some (note_on note 100 0)
  ∧ (dna ≫= note_events) !! (2 * i + 1) = Some (note_off note 100 200).
Proof.
  intros Hall. revert i. induction Hall as [|d dna Hd _ IH]; intros i Hi Hnote; [done|].
  destruct (note_events_base d Hd) as (noted & Hnoted & Hev).
  rewrite bind_cons, Hev. destruct i as [|i]; simpl in Hi.
  - injection Hi as ->. rewrite Hnote in Hnoted. injection Hnoted as <-. done.
  - replace (2 * S i) with (S (S (2 * i))) by lia.
    replace (S (S (2 * i)) + 1) with (S (S (2 * i + 1))) by lia.
    simpl. by apply IH.
Qed.

Lemma note_events_ticks (dna : str) :
  Forall (λ c, c ∈ py "ATCG") dna →
  track_ticks (dna ≫= note_events) = (200 * Z.of_nat (length dna))%Z.
Proof.
  induction 1 as [|c dna Hc _ IH]; [done|].
  destruct (note_events_base c Hc) as (note & _ & Hev).
  rewrite bind_cons, Hev. unfold track_ticks in *. simpl foldr. rewrite IH.
  simpl msg_time. simpl length. lia.
Qed.

(** X14. The track of a cleaned sequence, as the application builds it:
    first the program change with delta time 0, then the tempo, then for the
    symbol at index [i] the note-on of its pitch in [BASE_NOTE_MAP] (velocity
    100, delta time 0) at index [2 + 2 i] and its note-off (velocity 100,
    delta time 200) at index [3 + 2 i]; the track has [2 + 2 len] messages
    and lasts [200 len] ticks. *)
Theorem midi_track_of_cleaned (up : N → str) (bpm2tempo : Z → Z)
    (raw : str) (bpm program : Z) :
  let dna := clean_dna up raw in
  let track := midi_track bpm2tempo dna bpm program in
  track !! 0 = Some (program_change program 0)
  ∧ track !! 1 = Some (set_tempo (bpm2tempo bpm))
  ∧ length track = 2 + 2 * length dna
  ∧ (∀ i c, dna !! i = Some c →
       ∃ note, BASE_NOTE_MAP !! c = Some note
               ∧ track !! (2 + 2 * i) = Some (note_on note 100 0)
               ∧ track !! (3 + 2 * i) = Some (note_off note 100 200))
  ∧ track_ticks track = (200 * Z.of_nat (length dna))%Z.
Proof.
  intros dna track. pose proof (clean_dna_bases up raw) as Hall. fold dna in Hall.
  unfold track. rewrite midi_track_spec.
  split_and!; [done|done| | |].
  - rewrite length_app, note_events_length by done. done.
  - intros i c Hi.
    assert (Hc : c ∈ py "ATCG").
    { rewrite Forall_forall in Hall. apply Hall. by eapply list_elem_of_lookup_2. }
    destruct (note_events_base c Hc) as (note & Hnote & _). exists note.
    destruct (note_events_lookup dna i c note Hall Hi Hnote) as [Hon Hoff].
    split_and!; [done| |].
    + change (2 + 2 * i) with (S (S (2 * i))). done.
    + replace (3 + 2 * i) with (S (S (2 * i + 1))) by lia. done.
  - change (track_ticks ([program_change program 0; set_tempo (bpm2tempo bpm)]
                          ++ dna ≫= note_events))
      with (0 + (0 + track_ticks (dna ≫= note_events)))%Z.
    rewrite note_events_ticks by done. lia.
Qed.

(** ** The tempo of [save_midi] *)

(** [int(60000000 / bpm)] for each [bpm] that the tempo field of the form
    accepts, computed in binary64. *)
Lemma tempo_table :
  forallb (λ bpm, bool_decide
             (int_of_float (float_of_Z 60000000 / float_of_Z bpm)%float
              = Some (60000000 `div` bpm)%Z))
          (seqZ 40 261) = true.
Proof. by vm_compute. Qed.

(** X15. For every tempo that the form accepts (40 to 300 beats per
    minute), the floating-point quotient [60000000 / bpm] truncated by [int]
    is the integer quotient of 60000000 by [bpm]; it lies between 200000 and
    1500000 microseconds per beat, within the 24 bits of a MIDI tempo; and
    the track is the program change, this tempo, and the notes of the
    sequence. *)
Theorem save_midi_tempo (sequence : str) (bpm program : Z) :
  (40 ≤ bpm ≤ 300)%Z →
  save_midi_track sequence bpm program
  = Some ([program_change program 0; set_tempo (60000000 `div` bpm)%Z]
          ++ (sequence ≫= note_events))
  ∧ (200000 ≤ 60000000 `div` bpm ≤ 1500000)%Z
  ∧ (60000000 `div` bpm < 2 ^ 24)%Z.
Proof.
  intros Hbpm.
  assert (Htempo : int_of_float (float_of_Z 60000000 / float_of_Z bpm)%float
                   = Some (60000000 `div` bpm)%Z).
  { pose proof tempo_table as Htab. rewrite forallb_forall in Htab.
    eapply bool_decide_eq_true_1, Htab. apply list_elem_of_In, elem_of_seqZ. lia. }
  assert (Hrange : (200000 ≤ 60000000 `div` bpm ≤ 1500000)%Z).
  { split.
    - apply Z.div_le_lower_bound; lia.
    - apply Z.div_le_upper_bound; lia. }
  change (2 ^ 24)%Z with 16777216%Z. split_and!; [|lia..].
  unfold save_midi_track. rewrite Htempo. simpl. by rewrite midi_track_foldl.
Qed.

Lemma save_midi_tempo_witness :
  (40 ≤ 120 ≤ 300)%Z
  ∧ save_midi_track (py "GATTACA") 120 81
    = Some ([program_change 81 0; set_tempo (60000000 `div` 120)%Z]
            ++ (py "GATTACA" ≫= note_events)).
Proof.
  split; [lia|]. apply (save_midi_tempo (py "GATTACA") 120 81). lia.
Defined.

(** ** The percentages are finite numbers *)

Section Binary64Finite.
Local Open Scope Z_scope.

Lemma binary_round_aux_cases (s : bool) (mx ex : Z) (lx : location) (k : Z) :
  0 ≤ k → 0 ≤ mx < 2 ^ k → Z.max ex (-1074) + 2 * k + 1 ≤ 971 →
  binary_round_aux prec emax s mx ex lx = S754_zero s
  ∨ ∃ m e, binary_round_aux prec emax s mx ex lx = S754_finite s m e
           ∧ e ≤ Z.max ex (-1074) + 2 * k + 1.
Proof.
  intros Hk Hmx Hex. unfold binary_round_aux.
  pose proof (shr_fexp_bounds mx ex lx k Hk Hmx) as [Hm1 He1].
  destruct (shr_fexp prec emax mx ex lx) as [mrs1 e1]. simpl in Hm1, He1.
  pose proof (round_nearest_even_bounds (shr_m mrs1) (loc_of_shr_record mrs1)) as Hr.
  set (m2 := round_nearest_even (shr_m mrs1) (loc_of_shr_record mrs1)) in *.
  clearbody m2.
  assert (Hm2 : 0 ≤ m2 < 2 ^ (k + 1)).
  { assert (0 < 2 ^ k) by (apply Z.pow_pos_nonneg; lia).
    rewrite Z.pow_add_r by lia. change (2 ^ 1) with 2. lia. }
  assert (Hk1 : 0 ≤ k + 1) by lia.
  pose proof (shr_fexp_bounds m2 e1 loc_Exact (k + 1) Hk1 Hm2) as [Hm3 He3].
  destruct (shr_fexp prec emax m2 e1 loc_Exact) as [mrs2 e2]. simpl in Hm3, He3.
  destruct (shr_m mrs2) as [|p|p]; [by left| |lia].
  right. exists p, e2.
  replace (e2 <=? emax - prec) with true; [split; [done|lia]|].
  symmetry. apply Z.leb_le. unfold emax, prec. lia.
Qed.

(** The quotient of two counts is zero or a finite double of small exponent. *)
Lemma SFdiv_small_cases (x y : spec_float) :
  (x = S754_zero false
   ∨ ∃ m e, x = S754_finite false m e ∧ -52 ≤ e ≤ 0 ∧ Z.pos (digits2_pos m) = 53) →
  (∃ m e, y = S754_finite false m e ∧ -52 ≤ e ≤ 0 ∧ Z.pos (digits2_pos m) = 53) →
  SFdiv prec emax x y = S754_zero false
  ∨ ∃ m e, SFdiv prec emax x y = S754_finite false m e ∧ e ≤ 212.
Proof.
  intros Hx (m2 & e2 & -> & He2 & Hd2).
  destruct Hx as [->|(m1 & e1 & -> & He1 & Hd1)]; [by left|].
  unfold SFdiv, SFdiv_core_binary. simpl Zdigits2. rewrite Hd1, Hd2.
  rewrite fexp_small by lia.
  replace (Z.min (53 + e1 - (53 + e2) - 53) (e1 - e2)) with (e1 - e2 - 53) by lia.
  replace (e1 - e2 - (e1 - e2 - 53)) with 53 by lia.
  pose proof (digits2_pos_bounds m1) as [_ Hm1]. rewrite Hd1 in Hm1.
  assert (Hq : 0 ≤ (Z.shiftl (Z.pos m1) 53) `div` Z.pos m2 < 2 ^ 106).
  { rewrite Z.shiftl_mul_pow2 by lia. split.
    - apply Z.div_pos; lia.
    - apply Z.div_lt_upper_bound; [lia|].
      change (2 ^ 106) with (2 ^ 53 * 2 ^ 53). nia. }
  unfold Z.div in Hq.
  destruct (Z.div_eucl (Z.shiftl (Z.pos m1) 53) (Z.pos m2)) as [q r]. simpl in Hq.
  destruct (binary_round_aux_cases (xorb false false) q (e1 - e2 - 53)
              (new_location (Z.pos m2) r) 106) as [Hz|(m & e & Hf & He)];
    [lia|done|lia|by left|].
  right. exists m, e. split; [done|lia].
Qed.
End Binary64Finite.

Section PercentFinite.
Local Open Scope Z_scope.

Lemma valid_mantissa (s : bool) (m : positive) (e : Z) :
  valid_binary (S754_finite s m e) = true → Z.pos m < 2 ^ 53.
Proof.
  unfold SpecFloat.valid_binary, bounded, canonical_mantissa.
  intros [Hcanon _]%andb_true_iff. apply Z.eqb_eq in Hcanon.
  unfold fexp, emin, prec, emax in Hcanon.
  pose proof (digits2_pos_bounds m) as [_ Hhi].
  assert (2 ^ Z.pos (digits2_pos m) ≤ 2 ^ 53) by (apply Z.pow_le_mono_r; lia).
  lia.
Qed.

Lemma not_nan_not_inf (r : float) :
  (∃ s, Prim2SF r = S754_zero s) ∨ (∃ s m e, Prim2SF r = S754_finite s m e) →
  is_nan r = false ∧ is_infinity r = false.
Proof.
  intros Hr. unfold is_nan, is_infinity. rewrite !FloatAxioms.eqb_spec, abs_spec.
  change (Prim2SF infinity) with (S754_infinity false).
  destruct Hr as [[s ->]|(s & m & e & ->)]; [done|].
  split; [|done]. unfold SFeqb, SFcompare.
  rewrite Z.compare_refl. destruct s; by rewrite (Pos.compare_cont_refl m Eq).
Qed.

(** A quotient of two counts, times 100, is neither a NaN nor an infinity. *)
Lemma percent_finite (a b : nat) :
  Z.of_nat a < 2 ^ 53 → Z.of_nat b < 2 ^ 53 → (0 < b)%nat →
  is_nan (int_truediv a b * 100)%float = false
  ∧ is_infinity (int_truediv a b * 100)%float = false.
Proof.
  intros Ha Hb Hb0. apply not_nan_not_inf. rewrite mul_spec.
  pose proof (Prim2SF_valid (int_truediv a b)) as Hvalid.
  assert (Hq : Prim2SF (int_truediv a b) = S754_zero false
               ∨ ∃ m e, Prim2SF (int_truediv a b) = S754_finite false m e ∧ e ≤ 212).
  { unfold int_truediv. rewrite div_spec. apply SFdiv_small_cases.
    - destruct (Prim2SF_float_of_nat a Ha) as [[? _]|[_ ?]]; [by left|by right].
    - destruct (Prim2SF_float_of_nat b Hb) as [[_ ?]|[_ ?]]; [lia|done]. }
  change (Prim2SF 100) with (S754_finite false 7036874417766400 (-46)).
  destruct Hq as [Hq|(m & e & Hq & He)]; rewrite Hq in *.
  - left. by exists false.
  - apply valid_mantissa in Hvalid. unfold SF64mul, SFmul.
    destruct (binary_round_aux_cases (xorb false false)
                (Z.pos (m * 7036874417766400)) (e + -46) loc_Exact 106)
      as [Hz|(m' & e' & Hf & _)]; [lia| |lia| |].
    + rewrite Pos2Z.inj_mul. change (2 ^ 106) with (2 ^ 53 * 2 ^ 53). nia.
    + left. by exists false.
    + right. by exists false, m', e'.
Qed.
End PercentFinite.

(** X16. For any string shorter than [2^53], cleaned or not, empty or not,
    [gc_percent] and [at_percent] are finite doubles: neither a NaN nor an
    infinity. *)
Theorem percentages_are_finite (dna : str) :
  (Z.of_nat (length dna) < 2 ^ 53)%Z →
  is_nan (gc_percent (base_counts_and_stats dna)) = false
  ∧ is_infinity (gc_percent (base_counts_and_stats dna)) = false
  ∧ is_nan (at_percent (base_counts_and_stats dna)) = false
  ∧ is_infinity (at_percent (base_counts_and_stats dna)) = false.
Proof.
  intros Hlen.
  pose proof (gc_at_counts_of_any_string dna) as Hcounts. cbv zeta in Hcounts.
  destruct Hcounts as (_ & Hle & _). change (total _) with (length dna) in Hle.
  set (gc := dict_get (counts (base_counts_and_stats dna)) 71 0
             + dict_get (counts (base_counts_and_stats dna)) 67 0) in *.
  set (at_ := dict_get (counts (base_counts_and_stats dna)) 65 0
              + dict_get (counts (base_counts_and_stats dna)) 84 0) in *.
  assert (Hgc : gc_percent (base_counts_and_stats dna)
                = (int_truediv gc (Nat.max (length dna) 1) * 100)%float).
  { unfold base_counts_and_stats. cbv zeta. simpl gc_percent. by rewrite total_guard. }
  assert (Hat : at_percent (base_counts_and_stats dna)
                = (int_truediv at_ (Nat.max (length dna) 1) * 100)%float).
  { unfold base_counts_and_stats. cbv zeta. simpl at_percent. by rewrite total_guard. }
  rewrite Hgc, Hat.
  destruct (percent_finite gc (Nat.max (length dna) 1)) as [? ?]; [lia..|].
  destruct (percent_finite at_ (Nat.max (length dna) 1)) as [? ?]; [lia..|].
  done.
Qed.

Lemma percentages_are_finite_witness :
  (Z.of_nat (length (py "GATTACA")) < 2 ^ 53)%Z
  ∧ is_nan (gc_percent (base_counts_and_stats (py "GATTACA"))) = false
  ∧ is_infinity (gc_percent (base_counts_and_stats (py "GATTACA"))) = false.
Proof.
  assert (Hlen : (Z.of_nat (length (py "GATTACA")) < 2 ^ 53)%Z) by done.
  split_and!; [done|apply (percentages_are_finite _ Hlen)..].
Defined.
